(** * The table-driven encoder of protobuf-go: size and marshal

    A shallow embedding of [internal/impl]: the size and marshal walk over a
    message's coder table (sizePointer, sizePointerSlow, marshalAppendPointer,
    sizeExtensions, appendExtensions) and the construction of that table
    (makeCoderMethods), followed by the properties of both. *)

From Stdlib Require Import ZArith List String Lia Permutation Sorted.
From Stdlib.Strings Require Import Byte.
From stdpp Require Import base gmap list strings sorting.

Local Open Scope Z_scope.

(** ** Machine integers

    Go integers are fixed-width two's-complement numbers.  A value is a [Z];
    a conversion to a signed [w]-bit type wraps around. *)

Definition wrapSigned (w x : Z) : Z := (x + 2 ^ (w - 1)) mod 2 ^ w - 2 ^ (w - 1).

(** [int32(x)]. *)
Definition int32 (x : Z) : Z := wrapSigned 32 x.

(** [int(x)], and the result of arithmetic on [int]; 64 bits wide. *)
Definition int (x : Z) : Z := wrapSigned 64 x.

Definition inInt32 (x : Z) : Prop := - 2 ^ 31 <= x < 2 ^ 31.
Definition inInt (x : Z) : Prop := - 2 ^ 63 <= x < 2 ^ 63.

(** ** Panics

    A Go call either returns or panics. *)

Inductive outcome (A : Type) : Type :=
  | Ret (a : A)
  | Panic (msg : string).
Arguments Ret {A} a.
Arguments Panic {A} msg.

Definition bind {A B} (o : outcome A) (k : A -> outcome B) : outcome B :=
  match o with
  | Ret a => k a
  | Panic msg => Panic msg
  end.

Notation "'let*' x ':=' o 'in' k" := (bind o (fun x => k))
  (at level 10, x pattern, o at level 100, k at level 200).

(** ** sort.Slice and sort.Ints

    The library sort, as an insertion sort driven by the caller's [less].
    The tables sorted below have pairwise distinct keys, for which every
    sorting algorithm returns the same list ([sortSlice_unique]). *)

Section Sort.
Context {A : Type} (less : A -> A -> bool).

Fixpoint insertSorted (x : A) (l : list A) : list A :=
  match l with
  | [] => [x]
  | y :: l' => if less y x then y :: insertSorted x l' else x :: l
  end.

Fixpoint sortSlice (l : list A) : list A :=
  match l with
  | [] => []
  | x :: l' => insertSorted x (sortSlice l')
  end.
End Sort.

Definition sortInts (keys : list Z) : list Z := sortSlice Z.ltb keys.

(** ** Offsets into a message struct

    An [offset] names a field of the struct behind a message; the invalid
    offset stands for "this struct has no such field". *)

Definition offset := Z.
Definition invalidOffset : offset := -1.
Definition IsValid (f : offset) : bool := 0 <=? f.

(** ** Marshal options *)

Record marshalOptions := { Flags : Z }.

(** ** The storage layer and the values it holds

    [V] is what [p.Apply(f.offset)] reaches: the storage of one struct
    field together with what it points to, which for a message field is the
    child message with its own cached size.
    [elemIsNil v] is [fptr.Elem().IsNil()].  [error] is Go's error values,
    [ExtensionType] and [Value] are the two halves of an extension entry,
    [reflectType] and [StructField] are reflect's types and struct fields. *)

Class Storage := {
  V : Type;
  elemIsNil : V -> bool;
  error : Type;
  ExtensionType : Type;
  Value : Type;
  reflectType : Type;
  StructField : Type;
  zeroStructField : StructField
}.

Section DataModel.
Context {storage : Storage}.

(** *** Descriptors (the schema layer) *)

Inductive Kind :=
  | BoolKind | EnumKind | Int32Kind | Sint32Kind | Uint32Kind
  | Int64Kind | Sint64Kind | Uint64Kind | Sfixed32Kind | Fixed32Kind
  | FloatKind | Sfixed64Kind | Fixed64Kind | DoubleKind
  | StringKind | BytesKind | MessageKind | GroupKind.

Inductive Cardinality := Optional | Required | Repeated.

Inductive Syntax := Proto2 | Proto3.

Record OneofDescriptor := { Name : string }.

Record FieldDescriptor := {
  Number : Z;
  fdKind : Kind;
  fdCardinality : Cardinality;
  fdSyntax : Syntax;
  IsPacked : bool;
  IsWeak : bool;
  ContainingOneof : option OneofDescriptor
}.

Record MessageDescriptor := {
  FullName : string;
  Fields : list FieldDescriptor;
  Oneofs : list OneofDescriptor
}.

(** *** coderFieldInfo

    The per-field functions are handed the storage of the field, the
    [*coderFieldInfo] they were taken from and the options.  The data
    members are grouped in [coderFieldData], which is what the functions
    receive.  The member [validation] is not carried, and neither is [mi],
    the table of the field's message type: the function of a message field,
    which consults that table, stands here for the function with the table
    supplied.

    The functions are functions of the storage they are handed.  What they
    return may depend on the cached size of a child message; a store into
    that cached size is not modelled, so that every statement below relates
    size and marshal on one state of the instance. *)

Record coderFieldData := {
  ft : option reflectType;
  num : Z;
  offset_ : offset;
  wiretag : Z;
  tagsize : Z;
  isPointer : bool;
  isRequired : bool
}.

Record pointerCoderFuncs := {
  pcf_size : option (V -> coderFieldData -> marshalOptions -> Z);
  pcf_marshal :
    option (list byte -> V -> coderFieldData -> marshalOptions ->
            list byte * option error)
}.

Record coderFieldInfo := {
  funcs : pointerCoderFuncs;
  data :> coderFieldData
}.

Definition nilFuncs : pointerCoderFuncs :=
  {| pcf_size := None; pcf_marshal := None |}.

Definition zeroCoderFieldInfo : coderFieldInfo :=
  {| funcs := nilFuncs;
     data := {| ft := None; num := 0; offset_ := 0; wiretag := 0;
                tagsize := 0; isPointer := false; isRequired := false |} |}.

(** *** The records behind [*coderFieldInfo]

    A [*coderFieldInfo] is an address in the table's own store; the ordered
    list, the dense array and the number-keyed map all hold addresses, so
    that they share the records they point to.  An address always has a
    record behind it; a nil entry of the dense array is [None]. *)

Definition cfptr := nat.

Record cfStore := {
  cells : cfptr -> coderFieldInfo;
  next : cfptr
}.

Definition emptyStore : cfStore :=
  {| cells := fun _ => zeroCoderFieldInfo; next := 0%nat |}.

(** [&coderFieldInfo{...}] *)
Definition alloc (s : cfStore) (cf : coderFieldInfo) : cfptr * cfStore :=
  (next s,
   {| cells := fun q => if Nat.eqb q (next s) then cf else cells s q;
      next := S (next s) |}).

(** *** coderMessageInfo, as embedded in MessageInfo

    [methods] (the function table handed to the reflection layer) is not
    carried. *)

Record MessageInfo := {
  Desc : MessageDescriptor;
  store : cfStore;
  orderedCoderFields : list cfptr;
  denseCoderFields : list (option cfptr);
  coderFields : gmap Z cfptr;
  sizecacheOffset : offset;
  unknownOffset : offset;
  extensionOffset : offset;
  needsInitCheck : bool;
  isMessageSet : bool;
  numRequiredFields : Z
}.

Definition deref (mi : MessageInfo) (p : cfptr) : coderFieldInfo :=
  cells (store mi) p.

(** The zero MessageInfo of a message type, before its table is built. *)
Definition newMessageInfo (d : MessageDescriptor) : MessageInfo :=
  {| Desc := d; store := emptyStore; orderedCoderFields := [];
     denseCoderFields := []; coderFields := ∅;
     sizecacheOffset := 0; unknownOffset := 0; extensionOffset := 0;
     needsInitCheck := false; isMessageSet := false;
     numRequiredFields := 0 |}.

(** Assignments to the members of [mi]. *)
Definition setOffsets (mi : MessageInfo) (sc un ex : offset) : MessageInfo :=
  {| Desc := Desc mi; store := store mi;
     orderedCoderFields := orderedCoderFields mi;
     denseCoderFields := denseCoderFields mi; coderFields := coderFields mi;
     sizecacheOffset := sc; unknownOffset := un; extensionOffset := ex;
     needsInitCheck := needsInitCheck mi; isMessageSet := isMessageSet mi;
     numRequiredFields := numRequiredFields mi |}.

Definition setCoderFields (mi : MessageInfo) (st : cfStore)
    (ordered : list cfptr) (byNum : gmap Z cfptr) : MessageInfo :=
  {| Desc := Desc mi; store := st;
     orderedCoderFields := ordered;
     denseCoderFields := denseCoderFields mi; coderFields := byNum;
     sizecacheOffset := sizecacheOffset mi;
     unknownOffset := unknownOffset mi;
     extensionOffset := extensionOffset mi;
     needsInitCheck := needsInitCheck mi; isMessageSet := isMessageSet mi;
     numRequiredFields := numRequiredFields mi |}.

Definition setOrdered (mi : MessageInfo) (ordered : list cfptr) : MessageInfo :=
  setCoderFields mi (store mi) ordered (coderFields mi).

Definition setDense (mi : MessageInfo) (dense : list (option cfptr))
    : MessageInfo :=
  {| Desc := Desc mi; store := store mi;
     orderedCoderFields := orderedCoderFields mi;
     denseCoderFields := dense; coderFields := coderFields mi;
     sizecacheOffset := sizecacheOffset mi;
     unknownOffset := unknownOffset mi;
     extensionOffset := extensionOffset mi;
     needsInitCheck := needsInitCheck mi; isMessageSet := isMessageSet mi;
     numRequiredFields := numRequiredFields mi |}.

Definition setFlags (mi : MessageInfo) (init ms : bool) : MessageInfo :=
  {| Desc := Desc mi; store := store mi;
     orderedCoderFields := orderedCoderFields mi;
     denseCoderFields := denseCoderFields mi; coderFields := coderFields mi;
     sizecacheOffset := sizecacheOffset mi;
     unknownOffset := unknownOffset mi;
     extensionOffset := extensionOffset mi;
     needsInitCheck := init; isMessageSet := ms;
     numRequiredFields := numRequiredFields mi |}.

(** *** structInfo: where the Go struct keeps what *)

Record structInfo := {
  si_sizecacheOffset : offset;
  si_unknownOffset : offset;
  si_extensionOffset : offset;
  si_weakOffset : offset;
  fieldsByNumber : gmap Z StructField;
  oneofsByName : gmap string StructField
}.

(** *** Extensions

    [map[int32]ExtensionField].  The entries are listed in the order in
    which a [range] over the map visits them, which Go leaves unspecified:
    two lists that are permutations of each other are the same map. *)

Record ExtensionField := {
  xType : ExtensionType;
  xValue : Value
}.

Definition ExtMap := list (Z * ExtensionField).

(** The map index expression [ext[k]]. *)
Fixpoint extLookup (e : ExtMap) (k : Z) : option ExtensionField :=
  match e with
  | [] => None
  | (k', x) :: e' => if k' =? k then Some x else extLookup e' k
  end.

(** The map assignment [ext[k] = x]. *)
Fixpoint extAssign (e : ExtMap) (k : Z) (x : ExtensionField) : ExtMap :=
  match e with
  | [] => [(k, x)]
  | (k', x') :: e' =>
      if k' =? k then (k, x) :: e' else (k', x') :: extAssign e' k x
  end.

Record valueCoderFuncs := {
  vcf_size : option (Value -> Z -> marshalOptions -> Z);
  vcf_marshal :
    option (list byte -> Value -> Z -> marshalOptions ->
            list byte * option error)
}.

Record extensionFieldInfo := {
  xi_wiretag : Z;
  xi_tagsize : Z;
  xi_funcs : valueCoderFuncs
}.

(** *** Message instances

    A [pointer] is nil or the address of a message struct.  The struct
    holds the storage of the regular fields by offset, and the three
    slots the table may name: the cached size (an int32), the unknown
    bytes and the extension map. *)

Record messageStruct := {
  fieldAt : offset -> V;
  sizecache : Z;
  unknownFields : list byte;
  extensionFields : ExtMap
}.

Definition pointer := option messageStruct.

(** [atomic.StoreInt32(p.Apply(mi.sizecacheOffset).Int32(), v)] *)
Definition storeSizecache (m : messageStruct) (v : Z) : messageStruct :=
  {| fieldAt := fieldAt m; sizecache := v;
     unknownFields := unknownFields m;
     extensionFields := extensionFields m |}.
End DataModel.

(** ** The collaborators of the encoder

    Code of the runtime that the encoder calls: the build flag
    [flags.ProtoLegacy], the two flag bits of [protoiface], the
    per-extension-type coder cache and the message-set codec. *)

Class Codecs {storage : Storage} := {
  ProtoLegacy : bool;
  MarshalDeterministic : Z;
  MarshalUseCachedSize : Z;
  getExtensionFieldInfo : ExtensionType -> extensionFieldInfo;
  sizeMessageSet : MessageInfo -> pointer -> marshalOptions -> Z;
  marshalMessageSet :
    MessageInfo -> list byte -> pointer -> marshalOptions ->
    list byte * option error
}.

Section Encode.
Context {storage : Storage} {codecs : Codecs}.

Definition Deterministic (o : marshalOptions) : bool :=
  negb (Z.land (Flags o) MarshalDeterministic =? 0).

Definition UseCachedSize (o : marshalOptions) : bool :=
  negb (Z.land (Flags o) MarshalUseCachedSize =? 0).

(** *** sizeExtensions *)

Fixpoint sizeExtensionsRange (e : ExtMap) (opts : marshalOptions) (n : Z) : Z :=
  match e with
  | [] => n
  | (_, x) :: e' =>
      let xi := getExtensionFieldInfo (xType x) in
      match vcf_size (xi_funcs xi) with
      | None => sizeExtensionsRange e' opts n
      | Some size =>
          sizeExtensionsRange e' opts
            (int (n + size (xValue x) (xi_tagsize xi) opts))
      end
  end.

Definition sizeExtensions (mi : MessageInfo) (ext : option ExtMap)
    (opts : marshalOptions) : Z :=
  match ext with
  | None => 0
  | Some e => sizeExtensionsRange e opts 0
  end.

(** *** appendExtensions *)

(** One extension entry: [xi.funcs.marshal(b, x.Value(), xi.wiretag, opts)];
    calling a nil function panics. *)
Definition marshalExtension (b : list byte) (x : ExtensionField)
    (opts : marshalOptions) : outcome (list byte * option error) :=
  let xi := getExtensionFieldInfo (xType x) in
  match vcf_marshal (xi_funcs xi) with
  | None => Panic "invalid memory address or nil pointer dereference"
  | Some marshal => Ret (marshal b (xValue x) (xi_wiretag xi) opts)
  end.

(** The loop of [case 1]: every entry visited, no early return. *)
Fixpoint appendExtensionsRange (e : ExtMap) (opts : marshalOptions)
    (b : list byte) (err : option error) : outcome (list byte * option error) :=
  match e with
  | [] => Ret (b, err)
  | (_, x) :: e' =>
      let* r := marshalExtension b x opts in
      appendExtensionsRange e' opts (fst r) (snd r)
  end.

(** The loop of the [default] case, over the sorted keys.  A key missing
    from the map would index to the zero ExtensionField, whose nil type
    has no coder; every key comes from the map itself. *)
Fixpoint appendExtensionsKeys (e : ExtMap) (opts : marshalOptions)
    (keys : list Z) (b : list byte) : outcome (list byte * option error) :=
  match keys with
  | [] => Ret (b, None)
  | k :: keys' =>
      match extLookup e (int32 k) with
      | None => Panic "invalid memory address or nil pointer dereference"
      | Some x =>
          let* r := marshalExtension b x opts in
          match snd r with
          | Some err => Ret (fst r, Some err)
          | None => appendExtensionsKeys e opts keys' (fst r)
          end
      end
  end.

Definition appendExtensions (mi : MessageInfo) (b : list byte)
    (ext : option ExtMap) (opts : marshalOptions)
    : outcome (list byte * option error) :=
  match ext with
  | None => Ret (b, None)
  | Some e =>
      match length e with
      | 0%nat => Ret (b, None)
      | 1%nat => appendExtensionsRange e opts b None
      | _ =>
          let keys := sortInts (map (fun kx => int (fst kx)) e) in
          appendExtensionsKeys e opts keys b
      end
  end.

(** *** sizePointerSlow and sizePointer

    [p] is not nil in [sizePointerSlow]; the function is handed the struct
    behind it and returns the struct as the call leaves it. *)

Fixpoint sizeFields (mi : MessageInfo) (m : messageStruct)
    (opts : marshalOptions) (fs : list cfptr) (size : Z) : Z :=
  match fs with
  | [] => size
  | p :: fs' =>
      let f := deref mi p in
      match pcf_size (funcs f) with
      | None => sizeFields mi m opts fs' size
      | Some fsize =>
          let fptr := fieldAt m (offset_ f) in
          if isPointer f && elemIsNil fptr
          then sizeFields mi m opts fs' size
          else sizeFields mi m opts fs' (int (size + fsize fptr f opts))
      end
  end.

Definition sizePointerSlow (mi : MessageInfo) (m : messageStruct)
    (opts : marshalOptions) : Z * messageStruct :=
  if ProtoLegacy && isMessageSet mi then
    let size := sizeMessageSet mi (Some m) opts in
    if IsValid (sizecacheOffset mi)
    then (size, storeSizecache m (int32 size))
    else (size, m)
  else
    let size := 0 in
    let size :=
      if IsValid (extensionOffset mi)
      then int (size + sizeExtensions mi (Some (extensionFields m)) opts)
      else size in
    let size := sizeFields mi m opts (orderedCoderFields mi) size in
    let size :=
      if IsValid (unknownOffset mi)
      then int (size + Z.of_nat (length (unknownFields m)))
      else size in
    if IsValid (sizecacheOffset mi)
    then (size, storeSizecache m (int32 size))
    else (size, m).

(** [mi.init()] has run: [mi] is the built table. *)
Definition sizePointer (mi : MessageInfo) (p : pointer)
    (opts : marshalOptions) : Z * pointer :=
  match p with
  | None => (0, None)
  | Some m =>
      if UseCachedSize opts && IsValid (sizecacheOffset mi)
      then (int (sizecache m), p)
      else
        let r := sizePointerSlow mi m opts in
        (fst r, Some (snd r))
  end.

(** *** marshalAppendPointer

    As in sizePointer, [mi.init()] has run. *)

Fixpoint marshalFields (mi : MessageInfo) (m : messageStruct)
    (opts : marshalOptions) (fs : list cfptr) (b : list byte)
    : list byte * option error :=
  match fs with
  | [] => (b, None)
  | p :: fs' =>
      let f := deref mi p in
      match pcf_marshal (funcs f) with
      | None => marshalFields mi m opts fs' b
      | Some marshal =>
          let fptr := fieldAt m (offset_ f) in
          if isPointer f && elemIsNil fptr
          then marshalFields mi m opts fs' b
          else
            let r := marshal b fptr f opts in
            match snd r with
            | Some err => (fst r, Some err)
            | None => marshalFields mi m opts fs' (fst r)
            end
      end
  end.

Definition marshalAppendPointer (mi : MessageInfo) (b : list byte)
    (p : pointer) (opts : marshalOptions)
    : outcome (list byte * option error) :=
  match p with
  | None => Ret (b, None)
  | Some m =>
      if ProtoLegacy && isMessageSet mi
      then Ret (marshalMessageSet mi b p opts)
      else
        let* r :=
          (if IsValid (extensionOffset mi)
           then appendExtensions mi b (Some (extensionFields m)) opts
           else Ret (b, None)) in
        match snd r with
        | Some err => Ret (fst r, Some err)
        | None =>
            let r := marshalFields mi m opts (orderedCoderFields mi) (fst r) in
            match snd r with
            | Some err => Ret (fst r, Some err)
            | None =>
                if IsValid (unknownOffset mi) && negb (isMessageSet mi)
                then Ret (fst r ++ unknownFields m, None)
                else Ret (fst r, None)
            end
        end
  end.
End Encode.

(** ** The collaborators of the table builder

    Code of the runtime that makeCoderMethods calls: reflection on the Go
    struct, the wire package, the per-kind coder registry, the oneof
    initialiser and the descriptor predicates. *)

Class Registry {storage : Storage} := {
  sfType : StructField -> option reflectType;
  offsetOf : StructField -> offset;
  wireTypes : Kind -> Z;
  BytesType : Z;
  SizeVarint : Z -> Z;
  fieldCoder : FieldDescriptor -> option reflectType -> pointerCoderFuncs;
  makeWeakMessageFieldCoder : FieldDescriptor -> pointerCoderFuncs;
  initOneofFieldCoders :
    MessageInfo -> OneofDescriptor -> structInfo -> MessageInfo;
  IsMessageSet : MessageDescriptor -> bool;
  needsInitCheckOf : MessageDescriptor -> bool
}.

Section Build.
Context {storage : Storage} {registry : Registry}.

(** Modelled from the spec: wire.EncodeTag, which is not among the sources
    at hand; "tag = field-number<<3 | wire-type". *)
Definition EncodeTag (n typ : Z) : Z := Z.lor (Z.shiftl n 3) typ.

(** Modelled from the spec: fieldsort.Less, the historical field-ordering
    comparator, which is not among the sources at hand.  It "pushes oneof
    members to the end while keeping the rest in ascending-number order";
    oneof members keep their relative (ascending-number) order. *)
Definition Less (a b : FieldDescriptor) : bool :=
  match ContainingOneof a, ContainingOneof b with
  | None, Some _ => true
  | Some _, None => false
  | _, _ => Number a <? Number b
  end.

(** [fields.ByNumber(n)] *)
Definition ByNumber (fields : list FieldDescriptor) (n : Z)
    : option FieldDescriptor :=
  find (fun fd => Number fd =? n) fields.

Definition isMessageOrGroup (k : Kind) : bool :=
  match k with MessageKind | GroupKind => true | _ => false end.

Definition isRepeated (c : Cardinality) : bool :=
  match c with Repeated => true | _ => false end.

Definition isRequiredCard (c : Cardinality) : bool :=
  match c with Required => true | _ => false end.

Definition isProto3 (s : Syntax) : bool :=
  match s with Proto3 => true | _ => false end.

(** The body of the loop over the descriptor's fields, up to the record
    [cf]. *)
Definition newCoderFieldInfo (si : structInfo) (fd : FieldDescriptor)
    : coderFieldInfo :=
  let fs := default zeroStructField (fieldsByNumber si !! Number fd) in
  let fs :=
    match ContainingOneof fd with
    | Some od => default zeroStructField (oneofsByName si !! Name od)
    | None => fs
    end in
  let ft := sfType fs in
  let wiretag :=
    if negb (IsPacked fd)
    then EncodeTag (Number fd) (wireTypes (fdKind fd))
    else EncodeTag (Number fd) BytesType in
  let '(fieldOffset, funcs) :=
    match ContainingOneof fd with
    | Some _ => (offsetOf fs, nilFuncs)
    | None =>
        if IsWeak fd
        then (si_weakOffset si, makeWeakMessageFieldCoder fd)
        else (offsetOf fs, fieldCoder fd ft)
    end in
  {| funcs := funcs;
     data := {| ft := ft;
                num := Number fd;
                offset_ := fieldOffset;
                wiretag := wiretag;
                tagsize := SizeVarint wiretag;
                isPointer :=
                  isRepeated (fdCardinality fd)
                  || isMessageOrGroup (fdKind fd)
                  || negb (isProto3 (fdSyntax fd));
                isRequired := isRequiredCard (fdCardinality fd) |} |}.

(** One iteration: allocate [cf], append it, enter it in the map. *)
Definition addCoderField (si : structInfo) (mi : MessageInfo)
    (fd : FieldDescriptor) : MessageInfo :=
  let cf := newCoderFieldInfo si fd in
  let r := alloc (store mi) cf in
  setCoderFields mi (snd r)
    (orderedCoderFields mi ++ [fst r])
    (<[num cf := fst r]> (coderFields mi)).

(** The first scan: how far the dense array reaches. *)
Fixpoint scanMaxDense (mi : MessageInfo) (fs : list cfptr) (maxDense : Z) : Z :=
  match fs with
  | [] => maxDense
  | p :: fs' =>
      let cf := deref mi p in
      if (16 <=? num cf) && (int32 (2 * maxDense) <=? num cf)
      then maxDense
      else scanMaxDense mi fs' (num cf)
  end.

(** The second scan: fill the dense array.  An index outside the array
    panics. *)
Fixpoint fillDense (mi : MessageInfo) (fs : list cfptr)
    (dense : list (option cfptr)) : outcome (list (option cfptr)) :=
  match fs with
  | [] => Ret dense
  | p :: fs' =>
      let cf := deref mi p in
      if Z.of_nat (length dense) <? int (num cf) then Ret dense
      else if (num cf <? 0) || (Z.of_nat (length dense) <=? num cf)
      then Panic "index out of range"
      else fillDense mi fs' (<[Z.to_nat (num cf) := Some p]> dense)
  end.

Definition lessByNumber (mi : MessageInfo) (i j : cfptr) : bool :=
  num (deref mi i) <? num (deref mi j).

(** The comparator of the second sort; [fields] is [mi.Desc.Fields()] as
    read at the top of makeCoderMethods.  Both lookups succeed, the
    numbers being those of the descriptor's own fields. *)
Definition lessByDescriptor (fields : list FieldDescriptor)
    (mi : MessageInfo) (i j : cfptr) : bool :=
  match ByNumber fields (num (deref mi i)),
        ByNumber fields (num (deref mi j)) with
  | Some fi, Some fj => Less fi fj
  | _, _ => false
  end.

(** makeCoderMethods, first part: the slots, the loop over the descriptor's
    fields and the loop over its oneofs. *)
Definition collectCoderFields (mi : MessageInfo) (si : structInfo)
    : MessageInfo :=
  let mi := setOffsets mi (si_sizecacheOffset si) (si_unknownOffset si)
              (si_extensionOffset si) in
  let mi := setCoderFields mi (store mi) (orderedCoderFields mi) ∅ in
  let fields := Fields (Desc mi) in
  let mi := fold_left (addCoderField si) fields mi in
  fold_left (fun mi od => initOneofFieldCoders mi od si)
    (Oneofs (Desc mi)) mi.

(** makeCoderMethods, second part: the message-set check. *)
Definition checkMessageSet (mi : MessageInfo) : outcome MessageInfo :=
  if IsMessageSet (Desc mi) then
    if negb (IsValid (extensionOffset mi))
    then Panic (FullName (Desc mi) ++ ": MessageSet with no extensions field")
    else if negb (IsValid (unknownOffset mi))
    then Panic (FullName (Desc mi) ++ ": MessageSet with no unknown field")
    else Ret (setFlags mi (needsInitCheck mi) true)
  else Ret mi.

(** makeCoderMethods, third part: the sort by number, the dense array,
    the oneofs-last sort and needsInitCheck.  The assignments to
    [mi.methods] that end the function are not modelled. *)
Definition indexCoderFields (fields : list FieldDescriptor)
    (mi : MessageInfo) : outcome MessageInfo :=
  let mi := setOrdered mi (sortSlice (lessByNumber mi) (orderedCoderFields mi)) in
  let maxDense := scanMaxDense mi (orderedCoderFields mi) 0 in
  let n := int32 (maxDense + 1) in
  if n <? 0 then Panic "makeslice: len out of range" else
  let* dense := fillDense mi (orderedCoderFields mi)
                  (replicate (Z.to_nat n) None) in
  let mi := setDense mi dense in
  let mi :=
    if (0 <? length (Oneofs (Desc mi)))%nat
    then setOrdered mi
           (sortSlice (lessByDescriptor fields mi) (orderedCoderFields mi))
    else mi in
  Ret (setFlags mi (needsInitCheckOf (Desc mi)) (isMessageSet mi)).

Definition makeCoderMethods (mi : MessageInfo) (t : option reflectType)
    (si : structInfo) : outcome MessageInfo :=
  let fields := Fields (Desc mi) in
  let mi := collectCoderFields mi si in
  let* mi := checkMessageSet mi in
  indexCoderFields fields mi.
End Build.

(** ** Orders given by a comparator *)

Section SortSpec.
Context {A : Type} (less : A -> A -> bool).

Definition lessRel (x y : A) : Prop := less x y = true.

(** [less] is a strict total order on the elements of [dom]. *)
Record strictTotalOn (dom : list A) : Prop := {
  sto_asym : forall x y, x ∈ dom -> y ∈ dom -> lessRel x y -> ~ lessRel y x;
  sto_trans :
    forall x y z, x ∈ dom -> y ∈ dom -> z ∈ dom ->
      lessRel x y -> lessRel y z -> lessRel x z;
  sto_total :
    forall x y, x ∈ dom -> y ∈ dom -> x <> y -> lessRel x y \/ lessRel y x
}.
End SortSpec.

(** ** Vocabulary of the properties

    What the statements below are phrased in: an encoding as a run of steps,
    the well-formedness of an extension map, and what it means for a coder's
    size function to agree with its marshal function. *)

Section EncodeSpec.
Context {storage : Storage} {codecs : Codecs}.

(** A step takes the buffer and returns it extended, possibly with an
    error. *)
Definition step := list byte -> outcome (list byte * option error).

(** Steps run in list order, each on the buffer the one before returned;
    the first error ends the run and is returned with that buffer. *)
Fixpoint runSteps (steps : list step) (b : list byte)
    : outcome (list byte * option error) :=
  match steps with
  | [] => Ret (b, None)
  | s :: steps' =>
      let* r := s b in
      match snd r with
      | Some err => Ret (fst r, Some err)
      | None => runSteps steps' (fst r)
      end
  end.

(** The keys of a Go [map[int32]ExtensionField]: pairwise distinct 32-bit
    integers. *)
Definition wfExtMap (e : ExtMap) : Prop :=
  NoDup (map fst e) /\ Forall inInt32 (map fst e).

Definition keyLess (a b : Z * ExtensionField) : bool := fst a <? fst b.

(** The entries of an extension map in ascending field-number order. *)
Definition sortedEntries (e : ExtMap) : list ExtensionField :=
  map snd (sortSlice keyLess e).

Definition extensionStep (opts : marshalOptions) (x : ExtensionField) : step :=
  fun b => marshalExtension b x opts.

(** A field takes part in the marshal walk: it has an encode function and
    is not a nil pointer-like field. *)
Definition fieldStep (mi : MessageInfo) (m : messageStruct)
    (opts : marshalOptions) (p : cfptr) : option step :=
  let f := deref mi p in
  match pcf_marshal (funcs f) with
  | None => None
  | Some marshal =>
      let fptr := fieldAt m (offset_ f) in
      if isPointer f && elemIsNil fptr then None
      else Some (fun b => Ret (marshal b fptr f opts))
  end.

Definition unknownStep (m : messageStruct) : step :=
  fun b => Ret (b ++ unknownFields m, None).

(** The steps of the canonical marshal path, in order. *)
Definition marshalSteps (mi : MessageInfo) (m : messageStruct)
    (opts : marshalOptions) : list step :=
  (if IsValid (extensionOffset mi)
   then map (extensionStep opts) (sortedEntries (extensionFields m))
   else [])
  ++ omap (fieldStep mi m opts) (orderedCoderFields mi)
  ++ (if IsValid (unknownOffset mi) && negb (isMessageSet mi)
      then [unknownStep m] else []).

(** The sum of a list of sizes, in unbounded arithmetic. *)
Definition sumZ (l : list Z) : Z := foldr Z.add 0 l.

(** What a field contributes to the size. *)
Definition sizeOfField (f : coderFieldInfo) (v : V)
    (opts : marshalOptions) : Z :=
  match pcf_size (funcs f) with
  | Some size => size v f opts
  | None => 0
  end.

(** The size function of field [f] reports what its marshal function
    appends, for the field storage [v] and the options [opts] of one call.
    A nil pointer-like field is skipped by both walks and asks nothing. *)
Definition fieldCoderAgrees (f : coderFieldInfo) (v : V)
    (opts : marshalOptions) : Prop :=
  isPointer f && elemIsNil v = false ->
  match pcf_marshal (funcs f) with
  | Some marshal =>
      forall b,
        snd (marshal b v f opts) = None ->
        Z.of_nat (length (fst (marshal b v f opts)))
        = Z.of_nat (length b) + sizeOfField f v opts
  | None => sizeOfField f v opts = 0
  end.

Definition sizeOfExtension (x : ExtensionField) (opts : marshalOptions) : Z :=
  let xi := getExtensionFieldInfo (xType x) in
  match vcf_size (xi_funcs xi) with
  | Some size => size (xValue x) (xi_tagsize xi) opts
  | None => 0
  end.

(** The same for the coder of the extension entry [x], under [opts]. *)
Definition extensionCoderAgrees (x : ExtensionField)
    (opts : marshalOptions) : Prop :=
  forall b b',
    marshalExtension b x opts = Ret (b', None) ->
    Z.of_nat (length b') = Z.of_nat (length b) + sizeOfExtension x opts.

(** The same for the message-set codec, on the instance [m] under
    [opts]. *)
Definition messageSetAgrees (mi : MessageInfo) (m : messageStruct)
    (opts : marshalOptions) : Prop :=
  forall b,
    snd (marshalMessageSet mi b (Some m) opts) = None ->
    Z.of_nat (length (fst (marshalMessageSet mi b (Some m) opts)))
    = Z.of_nat (length b) + sizeMessageSet mi (Some m) opts.

(** The coders that a size or marshal call on the instance [m] under
    [opts] runs each report as their size the number of bytes they append:
    the message-set codec on the legacy path; otherwise the coders of the
    extension entries of [m], when the type has the extension slot, and the
    coders of the fields on the values [m] holds. *)
Definition codersAgree (mi : MessageInfo) (m : messageStruct)
    (opts : marshalOptions) : Prop :=
  if ProtoLegacy && isMessageSet mi
  then messageSetAgrees mi m opts
  else
    (IsValid (extensionOffset mi) = true ->
     Forall (fun kx => extensionCoderAgrees (snd kx) opts)
       (extensionFields m))
    /\ Forall (fun q => fieldCoderAgrees (deref mi q)
                          (fieldAt m (offset_ (deref mi q))) opts)
         (orderedCoderFields mi).
End EncodeSpec.

Section BuildSpec.
Context {storage : Storage} {registry : Registry}.

(** What the builder relies on from the oneof initialiser: it works on the
    records the table already points to (it installs their functions) and
    leaves the table's lists, map, slots, flags and descriptor, and the
    number of every record, as they are. *)
Definition oneofInitFrame : Prop :=
  forall mi od si,
    let mi' := initOneofFieldCoders mi od si in
    Desc mi' = Desc mi
    /\ orderedCoderFields mi' = orderedCoderFields mi
    /\ coderFields mi' = coderFields mi
    /\ unknownOffset mi' = unknownOffset mi
    /\ extensionOffset mi' = extensionOffset mi
    /\ isMessageSet mi' = isMessageSet mi
    /\ forall p, num (deref mi' p) = num (deref mi p).

(** Field numbers of a message type: pairwise distinct, between 1 and
    2^29 - 1. *)
Definition validNumbers (d : MessageDescriptor) : Prop :=
  NoDup (map Number (Fields d))
  /\ Forall (fun n => 1 <= n < 2 ^ 29) (map Number (Fields d)).

(** The type is not a message set, or it has both slots a message set
    needs. *)
Definition messageSetSlots (d : MessageDescriptor) (si : structInfo) : Prop :=
  IsMessageSet d = true ->
  IsValid (si_extensionOffset si) = true
  /\ IsValid (si_unknownOffset si) = true.

(** The heuristic of the dense array, on the field numbers in ascending
    order: a number is taken unless it is at least 16 and at least twice
    the largest number taken so far; the first number not taken ends the
    selection. *)
Fixpoint denseSelected (largest : Z) (nums : list Z) : list Z :=
  match nums with
  | [] => []
  | n :: nums' =>
      if (16 <=? n) && (2 * largest <=? n) then []
      else n :: denseSelected n nums'
  end.

Definition isOneofMember (fd : FieldDescriptor) : bool :=
  match ContainingOneof fd with Some _ => true | None => false end.

(** The fields in ascending order of their numbers. *)
Definition ascendingFields (d : MessageDescriptor) : list FieldDescriptor :=
  sortSlice (fun a b => Number a <? Number b) (Fields d).

(** The canonical field order in the spec's words: ascending by number
    and, when the type has a oneof group, the oneof members moved to the
    end, their relative order kept. *)
Definition canonicalOrder (d : MessageDescriptor) : list FieldDescriptor :=
  match Oneofs d with
  | [] => ascendingFields d
  | _ :: _ =>
      List.filter (fun fd => negb (isOneofMember fd)) (ascendingFields d)
      ++ List.filter isOneofMember (ascendingFields d)
  end.

(** Oneof membership and the comparator of the second sort, read off the
    field numbers of a descriptor. *)
Definition memberNumber (fields : list FieldDescriptor) (n : Z) : bool :=
  match ByNumber fields n with
  | Some fd => isOneofMember fd
  | None => false
  end.

Definition lessNumbers (fields : list FieldDescriptor) (a b : Z) : bool :=
  match ByNumber fields a, ByNumber fields b with
  | Some fi, Some fj => Less fi fj
  | _, _ => false
  end.

(** The numbers of the table's fields, in the table's order. *)
Definition orderedNumbers (mi : MessageInfo) : list Z :=
  map (fun p => num (deref mi p)) (orderedCoderFields mi).

(** The number of the record behind a pointer. *)
Definition fieldKey (mi : MessageInfo) (p : cfptr) : Z := num (deref mi p).

(** A dense array after the records [sel] have been entered at their
    numbers. *)
Definition denseFold (mi : MessageInfo) (sel : list cfptr)
    (dense : list (option cfptr)) : list (option cfptr) :=
  fold_left (fun d p => <[Z.to_nat (fieldKey mi p) := Some p]> d) sel dense.

(** The dense-array entry for a field number; nil when the array has no
    such index or the entry is nil. *)
Definition denseLookup (mi : MessageInfo) (n : Z) : option cfptr :=
  if n <? 0 then None
  else mjoin (denseCoderFields mi !! Z.to_nat n).
End BuildSpec.

(** ** Example coders, tables and instances

    A small concrete runtime on which the statements below are evaluated:
    field storage is an optional byte string, an extension type is named by
    its field number, and every coder writes a one-byte tag followed by the
    payload. *)

Definition exStorage : Storage := {|
  V := option (list byte);
  elemIsNil := fun v => match v with None => true | Some _ => false end;
  error := string;
  ExtensionType := Z;
  Value := list byte;
  reflectType := string;
  StructField := Z;
  zeroStructField := 0
|}.

Definition tagByte (tag : Z) : byte :=
  default x00 (Byte.of_N (Z.to_N (tag mod 256))).

Section Examples.
#[local] Existing Instance exStorage.

Definition exPayload (v : option (list byte)) : list byte := default [] v.

(** A bytes field: tag, then the payload. *)
Definition exBytesCoder : pointerCoderFuncs := {|
  pcf_size := Some (fun v f _ => 1 + Z.of_nat (length (exPayload v)));
  pcf_marshal :=
    Some (fun b v f _ => (b ++ tagByte (wiretag f) :: exPayload v, None))
|}.

(** A string field whose content is never valid: it writes its tag and
    fails. *)
Definition exFailingCoder : pointerCoderFuncs := {|
  pcf_size := Some (fun v f _ => 1 + Z.of_nat (length (exPayload v)));
  pcf_marshal :=
    Some (fun b v f _ =>
            (b ++ [tagByte (wiretag f)],
             Some "string field contains invalid UTF-8"%string))
|}.

(** A field of two gibibytes, of which only the size matters. *)
Definition exHugeCoder : pointerCoderFuncs := {|
  pcf_size := Some (fun _ _ _ => 2 ^ 31);
  pcf_marshal := None
|}.

Definition exExtensionInfo (t : Z) : extensionFieldInfo := {|
  xi_wiretag := Z.lor (Z.shiftl t 3) 2;
  xi_tagsize := 1;
  xi_funcs := {|
    vcf_size := Some (fun v tagsize _ => tagsize + Z.of_nat (length v));
    vcf_marshal := Some (fun b v tag _ => (b ++ tagByte tag :: v, None))
  |}
|}.

Definition exSizeMessageSet (mi : MessageInfo) (p : pointer)
    (opts : marshalOptions) : Z :=
  match p with
  | Some m => 2 + Z.of_nat (length (unknownFields m))
  | None => 0
  end.

Definition exMarshalMessageSet (mi : MessageInfo) (b : list byte)
    (p : pointer) (opts : marshalOptions) : list byte * option string :=
  match p with
  | Some m => (b ++ x0b :: unknownFields m ++ [x0c], None)
  | None => (b, None)
  end.

(** The default build, without legacy support. *)
Definition exCodecs : Codecs := {|
  ProtoLegacy := false;
  MarshalDeterministic := 1;
  MarshalUseCachedSize := 2;
  getExtensionFieldInfo := exExtensionInfo;
  sizeMessageSet := exSizeMessageSet;
  marshalMessageSet := exMarshalMessageSet
|}.

(** The build with legacy support compiled in. *)
Definition exLegacyCodecs : Codecs := {|
  ProtoLegacy := true;
  MarshalDeterministic := 1;
  MarshalUseCachedSize := 2;
  getExtensionFieldInfo := exExtensionInfo;
  sizeMessageSet := exSizeMessageSet;
  marshalMessageSet := exMarshalMessageSet
|}.

Definition exOpts : marshalOptions := {| Flags := 0 |}.
Definition exCachedOpts : marshalOptions := {| Flags := 2 |}.

(** A length-delimited field that keeps, in the first byte of its storage,
    a size computed earlier for the content that follows it.  With cache
    reuse requested, the length prefix and the reported size are taken from
    that byte; otherwise from the content itself. *)
Definition exStoredSize (v : option (list byte)) : Z :=
  match v with
  | Some (c :: _) => Z.of_N (Byte.to_N c)
  | _ => 0
  end.

Definition exContent (v : option (list byte)) : list byte :=
  match v with
  | Some (_ :: content) => content
  | _ => []
  end.

Definition exLength (opts : marshalOptions) (v : option (list byte)) : Z :=
  if UseCachedSize (codecs := exCodecs) opts
  then exStoredSize v
  else Z.of_nat (length (exContent v)).

Definition exLengthCoder : pointerCoderFuncs := {|
  pcf_size := Some (fun v f opts => 2 + exLength opts v);
  pcf_marshal :=
    Some (fun b v f opts =>
            (b ++ tagByte (wiretag f) :: tagByte (exLength opts v)
               :: exContent v,
             None))
|}.

Definition exField (n : Z) (o : offset) (fs : pointerCoderFuncs)
    : coderFieldInfo :=
  {| funcs := fs;
     data := {| ft := None; num := n; offset_ := o;
                wiretag := Z.lor (Z.shiftl n 3) 2; tagsize := 1;
                isPointer := true; isRequired := false |} |}.

Definition exDescriptor : MessageDescriptor :=
  {| FullName := "example.Message"; Fields := []; Oneofs := [] |}.

(** A table over the records [cfs], in that order, with all three slots. *)
Definition exTableOf (cfs : list coderFieldInfo) (ms : bool) : MessageInfo :=
  {| Desc := exDescriptor;
     store := {| cells := fun p => nth p cfs zeroCoderFieldInfo;
                 next := length cfs |};
     orderedCoderFields := seq 0 (length cfs);
     denseCoderFields := [];
     coderFields := ∅;
     sizecacheOffset := 10;
     unknownOffset := 11;
     extensionOffset := 12;
     needsInitCheck := false;
     isMessageSet := ms;
     numRequiredFields := 0 |}.

Definition exTable : MessageInfo :=
  exTableOf [exField 1 0 exBytesCoder; exField 2 1 exBytesCoder] false.

(** Field 2 is length-delimited, with a stored size. *)
Definition exLengthTable : MessageInfo :=
  exTableOf [exField 1 0 exBytesCoder; exField 2 1 exLengthCoder] false.

Definition exFailingTable : MessageInfo :=
  exTableOf [exField 1 0 exBytesCoder; exField 2 1 exFailingCoder;
             exField 3 2 exBytesCoder] false.

Definition exHugeTable : MessageInfo :=
  exTableOf [exField 1 0 exHugeCoder] false.

Definition exSetTable : MessageInfo := exTableOf [] true.

Definition exExtension (t : Z) (v : list byte) : ExtensionField :=
  {| xType := t; xValue := v |}.

(** The same three extensions, attached in two different orders. *)
Definition exExtensions : ExtMap :=
  extAssign (extAssign (extAssign [] 9 (exExtension 9 [x09]))
               3 (exExtension 3 [x03])) 5 (exExtension 5 [x05]).

Definition exExtensions' : ExtMap :=
  extAssign (extAssign (extAssign [] 5 (exExtension 5 [x05]))
               9 (exExtension 9 [x09])) 3 (exExtension 3 [x03]).

(** An instance that has never been sized: its size cache is 0. *)
Definition exMessage : messageStruct :=
  {| fieldAt := fun o =>
       if o =? 0 then Some [x68; x69]
       else if o =? 1 then Some [x21]
       else None;
     sizecache := 0;
     unknownFields := [xf8; x01];
     extensionFields := exExtensions |}.

(** *** An example schema for the builder *)

Definition exInitOneof (mi : MessageInfo) (od : OneofDescriptor)
    (si : structInfo) : MessageInfo :=
  setCoderFields mi
    {| cells := fun p =>
         let cf := cells (store mi) p in
         match pcf_marshal (funcs cf) with
         | Some _ => cf
         | None => {| funcs := exBytesCoder; data := data cf |}
         end;
       next := next (store mi) |}
    (orderedCoderFields mi) (coderFields mi).

Definition exRegistry : Registry := {|
  sfType := fun _ => None;
  offsetOf := fun fs => fs;
  wireTypes := fun k =>
    match k with
    | StringKind | BytesKind | MessageKind => 2
    | GroupKind => 3
    | Fixed64Kind | Sfixed64Kind | DoubleKind => 1
    | Fixed32Kind | Sfixed32Kind | FloatKind => 5
    | _ => 0
    end;
  BytesType := 2;
  SizeVarint := fun _ => 1;
  fieldCoder := fun fd _ =>
    match fdKind fd with
    | StringKind => exFailingCoder
    | _ => exBytesCoder
    end;
  makeWeakMessageFieldCoder := fun _ => exBytesCoder;
  initOneofFieldCoders := exInitOneof;
  IsMessageSet := fun d => String.eqb (FullName d) "example.MessageSet";
  needsInitCheckOf := fun _ => false
|}.

Definition exFieldDescriptor (n : Z) (oneof : option string)
    : FieldDescriptor :=
  {| Number := n; fdKind := BytesKind; fdCardinality := Optional;
     fdSyntax := Proto3; IsPacked := false; IsWeak := false;
     ContainingOneof := option_map (fun s => {| Name := s |}) oneof |}.

(** Fields 1 (plain), 2 (member of oneof A), 3 (plain), 4 (member of
    oneof B). *)
Definition exOneofDescriptor : MessageDescriptor :=
  {| FullName := "example.Choice";
     Fields := [exFieldDescriptor 1 None; exFieldDescriptor 2 (Some "A");
                exFieldDescriptor 3 None; exFieldDescriptor 4 (Some "B")];
     Oneofs := [{| Name := "A" |}; {| Name := "B" |}] |}.

(** Sparse numbering, declared out of order. *)
Definition exSparseDescriptor : MessageDescriptor :=
  {| FullName := "example.Sparse";
     Fields := [exFieldDescriptor 12 None; exFieldDescriptor 1 None;
                exFieldDescriptor 50 None; exFieldDescriptor 20 None;
                exFieldDescriptor 5 None];
     Oneofs := [] |}.

Definition exSetDescriptor : MessageDescriptor :=
  {| FullName := "example.MessageSet"; Fields := []; Oneofs := [] |}.

Definition exStructInfo : structInfo :=
  {| si_sizecacheOffset := 10; si_unknownOffset := 11;
     si_extensionOffset := 12; si_weakOffset := invalidOffset;
     fieldsByNumber := list_to_map [(1, 0); (2, 1); (3, 2); (4, 3)];
     oneofsByName := ∅ |}.

(** A struct with no field for unknown bytes. *)
Definition exStructInfoNoUnknown : structInfo :=
  {| si_sizecacheOffset := 10; si_unknownOffset := invalidOffset;
     si_extensionOffset := 12; si_weakOffset := invalidOffset;
     fieldsByNumber := ∅; oneofsByName := ∅ |}.
End Examples.

(** ** The entry points and the method table

    [size] and [marshal] are the functions installed as
    protoreflect.Methods.Size and .Marshal; they unwrap the message and call
    sizePointer and marshalAppendPointer. *)

Section EntryPoints.
Context {storage : Storage} {codecs : Codecs}.

(** A protoreflect.Message as the entry points tell it apart: a
    [*messageState], a [*messageReflectWrapper], both of which lead to the
    pointer of the message struct, or some other implementation. *)
Inductive Message :=
  | messageState (p : pointer)
  | messageReflectWrapper (p : pointer)
  | otherMessage.

(** The type switch that opens [size] and [marshal]; the second type
    assertion is unchecked and panics on any other implementation. *)
Definition messagePointer (m : Message) : outcome pointer :=
  match m with
  | messageState p => Ret p
  | messageReflectWrapper p => Ret p
  | otherMessage =>
      Panic "interface conversion: protoreflect.Message is not *impl.messageReflectWrapper"
  end.

Record MarshalInput := { Buf : list byte }.
Record MarshalOutput := { OutBuf : list byte }.

(** [mi.size]: the size, and the message as the call leaves it. *)
Definition MessageInfo_size (mi : MessageInfo) (m : Message)
    (opts : marshalOptions) : outcome (Z * pointer) :=
  let* p := messagePointer m in
  Ret (sizePointer mi p opts).

(** [mi.marshal] *)
Definition MessageInfo_marshal (mi : MessageInfo) (m : Message)
    (input : MarshalInput) (opts : marshalOptions)
    : outcome (MarshalOutput * option error) :=
  let* p := messagePointer m in
  let* r := marshalAppendPointer mi (Buf input) p opts in
  Ret ({| OutBuf := fst r |}, snd r).

(** [proto.MarshalOptions], and [marshalOptions.Options]. *)
Record protoMarshalOptions := {
  AllowPartial : bool;
  po_Deterministic : bool;
  po_UseCachedSize : bool
}.

Definition Options (o : marshalOptions) : protoMarshalOptions :=
  {| AllowPartial := true;
     po_Deterministic := Deterministic o;
     po_UseCachedSize := UseCachedSize o |}.
End EntryPoints.

(** The end of makeCoderMethods: the method table.  [func] is the type of
    the function values; the four table-driven functions and the two
    support flags of [protoiface] are given. *)

Section MethodTable.
Context {func : Type}.
Variables (mi_marshal mi_size mi_unmarshal mi_isInitialized : func).
Variables (SupportMarshalDeterministic SupportUnmarshalDiscardUnknown : Z).

Record Methods := {
  m_Flags : Z;
  m_Marshal : option func;
  m_Size : option func;
  m_Unmarshal : option func;
  m_IsInitialized : option func
}.

Definition isNil {A} (o : option A) : bool :=
  match o with None => true | Some _ => false end.

Definition installMethods (ms : Methods) : Methods :=
  let ms :=
    if isNil (m_Marshal ms) && isNil (m_Size ms)
    then {| m_Flags := Z.lor (m_Flags ms) SupportMarshalDeterministic;
            m_Marshal := Some mi_marshal;
            m_Size := Some mi_size;
            m_Unmarshal := m_Unmarshal ms;
            m_IsInitialized := m_IsInitialized ms |}
    else ms in
  let ms :=
    if isNil (m_Unmarshal ms)
    then {| m_Flags := Z.lor (m_Flags ms) SupportUnmarshalDiscardUnknown;
            m_Marshal := m_Marshal ms;
            m_Size := m_Size ms;
            m_Unmarshal := Some mi_unmarshal;
            m_IsInitialized := m_IsInitialized ms |}
    else ms in
  if isNil (m_IsInitialized ms)
  then {| m_Flags := m_Flags ms;
          m_Marshal := m_Marshal ms;
          m_Size := m_Size ms;
          m_Unmarshal := m_Unmarshal ms;
          m_IsInitialized := Some mi_isInitialized |}
  else ms.
End MethodTable.

(** ** Further vocabulary *)

Section EncodeSpecMore.
Context {storage : Storage} {codecs : Codecs}.

(** What a field adds to the size in the size walk: nothing when it has no
    size function or is a nil pointer-like field. *)
Definition fieldContribution (mi : MessageInfo) (m : messageStruct)
    (opts : marshalOptions) (p : cfptr) : Z :=
  let f := deref mi p in
  match pcf_size (funcs f) with
  | None => 0
  | Some fsize =>
      let fptr := fieldAt m (offset_ f) in
      if isPointer f && elemIsNil fptr then 0 else fsize fptr f opts
  end.

(** The marshal function of a field returns its buffer extended. *)
Definition fieldCoderAppends (f : coderFieldInfo) : Prop :=
  match pcf_marshal (funcs f) with
  | Some marshal => forall b v opts, b `prefix_of` fst (marshal b v f opts)
  | None => True
  end.

Definition extensionCoderAppends (x : ExtensionField) : Prop :=
  match vcf_marshal (xi_funcs (getExtensionFieldInfo (xType x))) with
  | Some marshal => forall b v tag opts, b `prefix_of` fst (marshal b v tag opts)
  | None => True
  end.

Definition messageSetAppends (mi : MessageInfo) : Prop :=
  forall b p opts, b `prefix_of` fst (marshalMessageSet mi b p opts).

(** The extension's type has an encode function. *)
Definition extensionHasMarshal (x : ExtensionField) : bool :=
  negb (isNil (vcf_marshal (xi_funcs (getExtensionFieldInfo (xType x))))).

(** Two instances that are the same but for the order in which their
    extension maps list the entries. *)
Definition sameButListing (m m' : messageStruct) : Prop :=
  fieldAt m' = fieldAt m
  /\ sizecache m' = sizecache m
  /\ unknownFields m' = unknownFields m
  /\ extensionFields m' ≡ₚ extensionFields m.
End EncodeSpecMore.

Section ExamplesMore.
#[local] Existing Instance exStorage.

(** The example instance with its extensions attached in the other
    order. *)
Definition exMessage' : messageStruct :=
  {| fieldAt := fieldAt exMessage;
     sizecache := sizecache exMessage;
     unknownFields := unknownFields exMessage;
     extensionFields := exExtensions' |}.

(** An extension type without an encode function. *)
Definition exNoMarshalInfo (t : Z) : extensionFieldInfo :=
  if t =? 3
  then {| xi_wiretag := 26; xi_tagsize := 1;
          xi_funcs := {| vcf_size := None; vcf_marshal := None |} |}
  else exExtensionInfo t.

Definition exNoMarshalCodecs : Codecs := {|
  ProtoLegacy := false;
  MarshalDeterministic := 1;
  MarshalUseCachedSize := 2;
  getExtensionFieldInfo := exNoMarshalInfo;
  sizeMessageSet := exSizeMessageSet;
  marshalMessageSet := exMarshalMessageSet
|}.

(** A packed repeated field 7 and a required message field 2. *)
Definition exPackedDescriptor : MessageDescriptor :=
  {| FullName := "example.Packed";
     Fields := [{| Number := 7; fdKind := Int32Kind;
                   fdCardinality := Repeated; fdSyntax := Proto3;
                   IsPacked := true; IsWeak := false;
                   ContainingOneof := None |};
                {| Number := 2; fdKind := MessageKind;
                   fdCardinality := Required; fdSyntax := Proto2;
                   IsPacked := false; IsWeak := false;
                   ContainingOneof := None |}];
     Oneofs := [] |}.
End ExamplesMore.

(** * Properties *)

(** ** Machine integers *)

Lemma wrapSigned_id w x :
  0 < w -> - 2 ^ (w - 1) <= x < 2 ^ (w - 1) -> wrapSigned w x = x.
Proof.
  intros Hw Hx. unfold wrapSigned.
  assert (E : 2 ^ w = 2 * 2 ^ (w - 1)).
  { replace w with (Z.succ (w - 1)) at 1 by lia. rewrite Z.pow_succ_r; lia. }
  rewrite Z.mod_small; lia.
Qed.

Lemma wrapSigned_add_l w a b :
  0 < w -> wrapSigned w (wrapSigned w a + b) = wrapSigned w (a + b).
Proof.
  intros Hw. unfold wrapSigned. f_equal.
  replace ((a + 2 ^ (w - 1)) mod 2 ^ w - 2 ^ (w - 1) + b + 2 ^ (w - 1))
    with ((a + 2 ^ (w - 1)) mod 2 ^ w + b) by lia.
  rewrite Zplus_mod_idemp_l. f_equal. lia.
Qed.

Lemma wrapSigned_range w x :
  0 < w -> - 2 ^ (w - 1) <= wrapSigned w x < 2 ^ (w - 1).
Proof.
  intros Hw. unfold wrapSigned.
  assert (E : 2 ^ w = 2 * 2 ^ (w - 1)).
  { replace w with (Z.succ (w - 1)) at 1 by lia. rewrite Z.pow_succ_r; lia. }
  assert (0 < 2 ^ (w - 1)) by (apply Z.pow_pos_nonneg; lia).
  pose proof (Z.mod_pos_bound (x + 2 ^ (w - 1)) (2 ^ w)). lia.
Qed.

Lemma int_id x : inInt x -> int x = x.
Proof. intros Hx. apply wrapSigned_id; [lia | exact Hx]. Qed.

Lemma int32_id x : inInt32 x -> int32 x = x.
Proof. intros Hx. apply wrapSigned_id; [lia | exact Hx]. Qed.

Lemma int_add_l a b : int (int a + b) = int (a + b).
Proof. apply wrapSigned_add_l. lia. Qed.

Lemma int_int a : int (int a) = int a.
Proof.
  transitivity (int (int a + 0)); [f_equal; lia|].
  rewrite int_add_l. f_equal. lia.
Qed.

Lemma int32_range x : inInt32 (int32 x).
Proof. apply (wrapSigned_range 32). lia. Qed.

Lemma inInt32_inInt x : inInt32 x -> inInt x.
Proof. unfold inInt32, inInt. lia. Qed.

(** ** The library sort

    [sortSlice] returns a permutation of its argument; on a list whose
    elements [less] orders strictly and totally the result is sorted, and is
    the only sorted permutation there is. *)

Section SortFacts.
Context {A : Type} (less : A -> A -> bool).

Lemma insertSorted_Permutation x l : insertSorted less x l ≡ₚ x :: l.
Proof.
  induction l as [|y l IH]; simpl; [done|].
  destruct (less y x); [|done].
  rewrite IH. apply perm_swap.
Qed.

Lemma sortSlice_Permutation l : sortSlice less l ≡ₚ l.
Proof.
  induction l as [|x l IH]; simpl; [done|].
  by rewrite insertSorted_Permutation, IH.
Qed.

Lemma sortSlice_length l : length (sortSlice less l) = length l.
Proof. apply Permutation_length, sortSlice_Permutation. Qed.

Lemma insertSorted_sorted dom x l :
  strictTotalOn less dom -> x ∈ dom -> l ⊆ dom -> x ∉ l ->
  StronglySorted (lessRel less) l -> StronglySorted (lessRel less) (insertSorted less x l).
Proof.
  intros Hsto Hx Hl Hnin Hs.
  induction l as [|y l IH]; simpl.
  { repeat constructor. }
  apply StronglySorted_cons in Hs as [Hy Hs].
  assert (Hyd : y ∈ dom) by (apply Hl; left).
  assert (Hld : l ⊆ dom) by (intros z Hz; apply Hl; by right).
  assert (Hxy : x <> y) by (intros ->; apply Hnin; left).
  assert (Hxl : x ∉ l) by (intros Hz; apply Hnin; by right).
  destruct (less y x) eqn:E.
  - apply StronglySorted_cons. split; [|by apply IH].
    rewrite insertSorted_Permutation. by constructor.
  - assert (Hlt : lessRel less x y).
    { destruct (sto_total less dom Hsto x y Hx Hyd Hxy) as [?|Hc]; [done|].
      unfold lessRel in Hc. congruence. }
    apply StronglySorted_cons. split.
    + constructor; [done|].
      rewrite Forall_forall in Hy |- *. intros z Hz.
      apply (sto_trans less dom Hsto x y z); auto.
    + apply StronglySorted_cons. by split.
Qed.

Lemma sortSlice_sorted l :
  strictTotalOn less l -> NoDup l -> StronglySorted (lessRel less) (sortSlice less l).
Proof.
  intros Hsto Hnd.
  assert (G : forall l', l' ⊆ l -> NoDup l' ->
                StronglySorted (lessRel less) (sortSlice less l')).
  { induction l' as [|x l' IH]; intros Hsub Hnd'; simpl; [constructor|].
    apply NoDup_cons in Hnd' as [Hx Hnd'].
    apply (insertSorted_sorted l); auto.
    - apply Hsub. left.
    - intros z Hz. rewrite sortSlice_Permutation in Hz.
      apply Hsub. by right.
    - by rewrite sortSlice_Permutation.
    - apply IH; [|done]. intros z Hz. apply Hsub. by right. }
  by apply G.
Qed.

Lemma sortSlice_unique l l' :
  strictTotalOn less l -> NoDup l ->
  l' ≡ₚ l -> StronglySorted (lessRel less) l' -> l' = sortSlice less l.
Proof.
  intros Hsto Hnd Hp Hs.
  apply (StronglySorted_unique_strong (lessRel less)); [|done| |].
  - intros x y Hx Hy Hxy Hyx. exfalso.
    rewrite Hp in Hx. rewrite sortSlice_Permutation in Hy.
    by apply (sto_asym less l Hsto x y).
  - by apply sortSlice_sorted.
  - by rewrite sortSlice_Permutation.
Qed.
End SortFacts.

Lemma sortSlice_map {A B} (f : A -> B) (lessB : B -> B -> bool) (l : list A) :
  map f (sortSlice (fun x y => lessB (f x) (f y)) l) = sortSlice lessB (map f l).
Proof.
  induction l as [|x l IH]; simpl; [done|].
  rewrite <- IH. clear IH.
  induction (sortSlice _ l) as [|y s IHs]; simpl; [done|].
  destruct (lessB (f y) (f x)); simpl; [by rewrite IHs | done].
Qed.

Lemma ltb_strictTotalOn (l : list Z) : strictTotalOn Z.ltb l.
Proof.
  split; unfold lessRel; intros *; rewrite ?Z.ltb_lt; intros; lia.
Qed.

Lemma sortInts_sorted keys :
  NoDup keys -> StronglySorted Z.lt (sortInts keys).
Proof.
  intros Hnd.
  pose proof (sortSlice_sorted Z.ltb keys (ltb_strictTotalOn keys) Hnd) as Hs.
  unfold sortInts. induction Hs as [|x l ? IH Hx]; constructor; [done|].
  eapply Forall_impl; [exact Hx|]. intros y. unfold lessRel. by rewrite Z.ltb_lt.
Qed.

Lemma sortInts_Permutation keys : sortInts keys ≡ₚ keys.
Proof. apply sortSlice_Permutation. Qed.

Lemma sortInts_perm_eq keys keys' :
  NoDup keys -> keys' ≡ₚ keys -> sortInts keys' = sortInts keys.
Proof.
  intros Hnd Hp. apply sortSlice_unique; [apply ltb_strictTotalOn|done| |].
  - by rewrite sortInts_Permutation.
  - assert (Hnd' : NoDup keys') by (by rewrite Hp).
    pose proof (sortSlice_sorted Z.ltb keys' (ltb_strictTotalOn keys') Hnd').
    done.
Qed.

(** ** The marshal walk as a run of steps *)

Section EncodeFacts.
Context {storage : Storage} {codecs : Codecs}.

Lemma runSteps_app (s1 s2 : list step) b :
  runSteps (s1 ++ s2) b =
  let* r := runSteps s1 b in
  match snd r with
  | Some err => Ret (fst r, Some err)
  | None => runSteps s2 (fst r)
  end.
Proof.
  revert b. induction s1 as [|s s1 IH]; intros b; simpl; [done|].
  destruct (s b) as [[b1 [err|]]|msg]; simpl; [done| |done].
  apply IH.
Qed.

(** The first failing step ends the run: nothing after it is run. *)
Lemma runSteps_abort (pre post : list step) (s : step) b b1 b2 err :
  runSteps pre b = Ret (b1, None) ->
  s b1 = Ret (b2, Some err) ->
  runSteps (pre ++ s :: post) b = Ret (b2, Some err).
Proof.
  intros Hpre Hs. rewrite runSteps_app, Hpre. simpl. by rewrite Hs.
Qed.

Lemma extLookup_elem (e : ExtMap) k x :
  NoDup (map fst e) -> (k, x) ∈ e -> extLookup e k = Some x.
Proof.
  induction e as [|[k' x'] e IH]; simpl; intros Hnd Hin.
  { by apply elem_of_nil in Hin. }
  apply NoDup_cons in Hnd as [Hk' Hnd].
  apply elem_of_cons in Hin as [Heq|Hin].
  - inversion Heq; subst. by rewrite Z.eqb_refl.
  - destruct (Z.eqb_spec k' k) as [->|Hne]; [|by apply IH].
    exfalso. apply Hk'. apply list_elem_of_fmap. by exists (k, x).
Qed.

Lemma appendExtensionsKeys_steps (e : ExtMap) opts keys entries b :
  Forall2 (fun k x => extLookup e (int32 k) = Some x) keys entries ->
  appendExtensionsKeys e opts keys b
  = runSteps (map (extensionStep opts) entries) b.
Proof.
  intros HF. revert b.
  induction HF as [|k x keys entries Hk HF IH]; intros b; simpl; [done|].
  rewrite Hk. unfold extensionStep at 1.
  destruct (marshalExtension b x opts) as [[b1 [err|]]|msg]; simpl; auto.
Qed.

Lemma wfExtMap_int_keys (e : ExtMap) :
  wfExtMap e -> map (fun kx => int (fst kx)) e = map fst e.
Proof.
  intros [_ Hr]. induction e as [|[k x] e IH]; simpl in *; [done|].
  apply Forall_cons in Hr as [Hk Hr].
  rewrite IH by done. f_equal. by apply int_id, inInt32_inInt.
Qed.

Lemma sortedKeys_entries (e : ExtMap) :
  wfExtMap e ->
  Forall2 (fun k x => extLookup e (int32 k) = Some x)
    (sortInts (map fst e)) (sortedEntries e).
Proof.
  intros [Hnd Hr]. unfold sortInts, sortedEntries.
  rewrite <- (sortSlice_map fst Z.ltb e).
  change (fun x y => fst x <? fst y) with keyLess.
  assert (Hall : Forall (fun kx => kx ∈ e) (sortSlice keyLess e)).
  { apply Forall_forall. intros kx Hin.
    by rewrite <- (sortSlice_Permutation keyLess e). }
  induction Hall as [|[k x] s Hkx Hall IH]; simpl; constructor; [|done].
  rewrite int32_id.
  - by apply extLookup_elem.
  - rewrite Forall_forall in Hr. apply Hr.
    apply list_elem_of_fmap. by exists (k, x).
Qed.

(** appendExtensions runs the coders of the entries in ascending
    field-number order, whatever the order in which the map lists them. *)
Lemma appendExtensions_steps mi b (e : ExtMap) opts :
  wfExtMap e ->
  appendExtensions mi b (Some e) opts
  = runSteps (map (extensionStep opts) (sortedEntries e)) b.
Proof.
  intros Hwf. unfold appendExtensions.
  destruct e as [|[k1 x1] [|[k2 x2] e]]; [done| |].
  - simpl. unfold extensionStep.
    destruct (marshalExtension b x1 opts) as [[b1 [err|]]|msg]; done.
  - cbn [length]. rewrite wfExtMap_int_keys by done.
    apply appendExtensionsKeys_steps. by apply sortedKeys_entries.
Qed.

Lemma marshalFields_steps mi m opts fs b :
  Ret (marshalFields mi m opts fs b)
  = runSteps (omap (fieldStep mi m opts) fs) b.
Proof.
  revert b. induction fs as [|p fs IH]; intros b; simpl; [done|].
  unfold fieldStep at 1.
  destruct (pcf_marshal (funcs (deref mi p))) as [marshal|]; [|apply IH].
  destruct (isPointer (deref mi p) && elemIsNil _); [apply IH|].
  simpl.
  destruct (marshal b _ _ opts) as [b1 [err|]]; simpl; [done|apply IH].
Qed.

(** On the canonical path marshalAppendPointer is the run of
    [marshalSteps]: extensions, fields, unknown bytes. *)
Lemma marshalAppendPointer_steps mi b m opts :
  ProtoLegacy && isMessageSet mi = false ->
  wfExtMap (extensionFields m) ->
  marshalAppendPointer mi b (Some m) opts
  = runSteps (marshalSteps mi m opts) b.
Proof.
  intros Hpath Hwf. unfold marshalAppendPointer, marshalSteps.
  rewrite Hpath, runSteps_app.
  assert (E :
    (if IsValid (extensionOffset mi)
     then appendExtensions mi b (Some (extensionFields m)) opts
     else Ret (b, None))
    = runSteps
        (if IsValid (extensionOffset mi)
         then map (extensionStep opts) (sortedEntries (extensionFields m))
         else []) b).
  { destruct (IsValid (extensionOffset mi)); [|done].
    by apply appendExtensions_steps. }
  rewrite E. clear E.
  destruct (runSteps _ b) as [[b1 [err|]]|msg]; simpl; [done| |done].
  rewrite runSteps_app, <- marshalFields_steps. simpl.
  destruct (marshalFields mi m opts (orderedCoderFields mi) b1)
    as [b2 [err|]]; simpl; [done|].
  by destruct (IsValid (unknownOffset mi) && negb (isMessageSet mi)).
Qed.
End EncodeFacts.

(** ** Extensions are encoded in ascending field-number order *)

Section ExtensionOrder.
Context {storage : Storage} {codecs : Codecs}.

Lemma wfExtMap_NoDup (e : ExtMap) : wfExtMap e -> NoDup e.
Proof. intros [Hnd _]. by apply (NoDup_fmap_1 fst). Qed.

Lemma wfExtMap_perm (e e' : ExtMap) : wfExtMap e -> e' ≡ₚ e -> wfExtMap e'.
Proof.
  intros [Hnd Hr] Hp. assert (Hk : map fst e' ≡ₚ map fst e) by (by rewrite Hp).
  split; by rewrite Hk.
Qed.

Lemma keyLess_strictTotalOn (e : ExtMap) :
  wfExtMap e -> strictTotalOn keyLess e.
Proof.
  intros [Hnd _].
  split; unfold lessRel, keyLess; intros *; rewrite ?Z.ltb_lt; try lia.
  intros Hx Hy Hne.
  destruct x as [k x], y as [k' y]; simpl.
  destruct (Z.eq_dec k k') as [->|]; [|lia].
  exfalso. apply Hne. f_equal.
  apply (extLookup_elem _ _ _ Hnd) in Hx, Hy. congruence.
Qed.

Lemma sortSlice_keyLess_perm (e e' : ExtMap) :
  wfExtMap e -> e' ≡ₚ e -> sortSlice keyLess e' = sortSlice keyLess e.
Proof.
  intros Hwf Hp. pose proof (wfExtMap_perm e e' Hwf Hp) as Hwf'.
  apply sortSlice_unique.
  - by apply keyLess_strictTotalOn.
  - by apply wfExtMap_NoDup.
  - by rewrite sortSlice_Permutation.
  - apply sortSlice_sorted;
      [by apply keyLess_strictTotalOn | by apply wfExtMap_NoDup].
Qed.

Lemma sortedEntries_keys_ascending (e : ExtMap) :
  wfExtMap e -> StronglySorted Z.lt (map fst (sortSlice keyLess e)).
Proof.
  intros Hwf. unfold keyLess.
  rewrite (sortSlice_map fst Z.ltb e). apply sortInts_sorted, Hwf.
Qed.

(** C2: appendExtensions encodes the entries of the extension set in
    ascending field-number order, so that two maps holding the same
    entries, listed in whatever order, give the same bytes (and the same
    error, if any); a single entry is encoded by one direct call of its
    coder, and an empty set appends nothing. *)
Theorem appendExtensions_deterministic mi b (e e' : ExtMap) opts :
  wfExtMap e -> e' ≡ₚ e ->
  appendExtensions mi b (Some e) opts
    = runSteps (map (extensionStep opts) (sortedEntries e)) b
  /\ StronglySorted Z.lt (map fst (sortSlice keyLess e))
  /\ sortSlice keyLess e ≡ₚ e
  /\ appendExtensions mi b (Some e') opts = appendExtensions mi b (Some e) opts
  /\ (forall k x, e = [(k, x)] ->
        appendExtensions mi b (Some e) opts
        = let* r := marshalExtension b x opts in Ret (fst r, snd r))
  /\ appendExtensions mi b (Some []) opts = Ret (b, None).
Proof.
  intros Hwf Hp. repeat split.
  - by apply appendExtensions_steps.
  - by apply sortedEntries_keys_ascending.
  - apply sortSlice_Permutation.
  - rewrite !appendExtensions_steps by eauto using wfExtMap_perm.
    unfold sortedEntries. by rewrite (sortSlice_keyLess_perm e e').
  - by intros k x ->.
Qed.
End ExtensionOrder.

(** ** The order of the bytes, and the first error *)

Section MarshalOrder.
Context {storage : Storage} {codecs : Codecs}.

(** C5: for a non-nil instance of a type that is not a message set,
    marshal runs, in this order, the coders of the extension set, the
    coders of the fields of orderedCoderFields in list order (leaving out
    the fields with no encode function and the nil pointer-like fields),
    and then appends the unknown bytes as they are when the type has the
    slot. *)
Theorem marshal_order mi b m opts :
  isMessageSet mi = false ->
  wfExtMap (extensionFields m) ->
  marshalAppendPointer mi b (Some m) opts
    = runSteps (marshalSteps mi m opts) b
  /\ marshalSteps mi m opts
     = (if IsValid (extensionOffset mi)
        then map (extensionStep opts) (sortedEntries (extensionFields m))
        else [])
       ++ omap (fieldStep mi m opts) (orderedCoderFields mi)
       ++ (if IsValid (unknownOffset mi) then [unknownStep m] else [])
  /\ (forall b',
        marshalAppendPointer mi b (Some m) opts = Ret (b', None) ->
        IsValid (unknownOffset mi) = true ->
        exists b2, b' = b2 ++ unknownFields m).
Proof.
  intros Hms Hwf.
  assert (Hpath : ProtoLegacy && isMessageSet mi = false).
  { rewrite Hms. apply andb_false_r. }
  split; [by apply marshalAppendPointer_steps|].
  split.
  { unfold marshalSteps. by rewrite Hms, andb_true_r. }
  intros b' Hret Hun. revert Hret.
  unfold marshalAppendPointer. rewrite Hpath, Hms, Hun. simpl.
  destruct (if IsValid (extensionOffset mi) then _ else _)
    as [[b1 [err|]]|msg]; simpl; [done| |done].
  destruct (marshalFields mi m opts (orderedCoderFields mi) b1)
    as [b2 [err|]]; simpl; [done|].
  intros [= <-]. by exists b2.
Qed.

(** C8: on the canonical path, the first coder that fails, of an extension
    or of a field, ends the walk: marshal returns that error with the
    buffer as that coder left it; what comes after it (later fields, the
    unknown bytes) is not run, and nothing is taken back. *)
Theorem marshal_first_error_aborts mi b m opts
    (pre post : list step) (s : step) b1 b2 err :
  ProtoLegacy && isMessageSet mi = false ->
  wfExtMap (extensionFields m) ->
  marshalSteps mi m opts = pre ++ s :: post ->
  runSteps pre b = Ret (b1, None) ->
  s b1 = Ret (b2, Some err) ->
  marshalAppendPointer mi b (Some m) opts = Ret (b2, Some err).
Proof.
  intros Hpath Hwf Hsteps Hpre Hs.
  rewrite marshalAppendPointer_steps, Hsteps by done.
  by apply runSteps_abort with b1.
Qed.
End MarshalOrder.

(** ** The message-set path and the size cache *)

Section SizeCache.
Context {storage : Storage} {codecs : Codecs}.

(** C3 (amended): when legacy support is compiled in (flags.ProtoLegacy)
    and the table is flagged as a message set, the full size computation
    is the MessageSetCodec's size routine, whose result, converted to
    int32, is stored in the size-cache slot when the type has one, and
    marshal of a non-nil instance is the MessageSetCodec's encode routine:
    no step of the canonical walk is run. *)
Theorem messageSet_delegation mi b m opts :
  ProtoLegacy = true ->
  isMessageSet mi = true ->
  sizePointerSlow mi m opts
    = (sizeMessageSet mi (Some m) opts,
       if IsValid (sizecacheOffset mi)
       then storeSizecache m (int32 (sizeMessageSet mi (Some m) opts))
       else m)
  /\ marshalAppendPointer mi b (Some m) opts
     = Ret (marshalMessageSet mi b (Some m) opts).
Proof.
  intros HL Hms. unfold sizePointerSlow, marshalAppendPointer.
  rewrite HL, Hms. simpl.
  by destruct (IsValid (sizecacheOffset mi)).
Qed.

Lemma sizePointerSlow_slots mi m opts :
  let r := sizePointerSlow mi m opts in
  fieldAt (snd r) = fieldAt m
  /\ unknownFields (snd r) = unknownFields m
  /\ extensionFields (snd r) = extensionFields m.
Proof.
  unfold sizePointerSlow.
  destruct (ProtoLegacy && isMessageSet mi);
    destruct (IsValid (sizecacheOffset mi)); done.
Qed.

Lemma sizePointerSlow_stores mi m opts :
  IsValid (sizecacheOffset mi) = true ->
  sizecache (snd (sizePointerSlow mi m opts))
  = int32 (fst (sizePointerSlow mi m opts)).
Proof.
  intros Hv. unfold sizePointerSlow. rewrite Hv.
  by destruct (ProtoLegacy && isMessageSet mi).
Qed.

Lemma sizeFields_sizecache mi m v opts fs size :
  sizeFields mi (storeSizecache m v) opts fs size
  = sizeFields mi m opts fs size.
Proof.
  revert size. induction fs as [|p fs IH]; intros size; simpl; [done|].
  destruct (pcf_size (funcs (deref mi p))); [|done].
  by destruct (isPointer (deref mi p) && elemIsNil _).
Qed.

(** On the canonical path the total does not depend on the cache slot. *)
Lemma sizePointerSlow_sizecache mi m v opts :
  ProtoLegacy && isMessageSet mi = false ->
  fst (sizePointerSlow mi (storeSizecache m v) opts)
  = fst (sizePointerSlow mi m opts).
Proof.
  intros Hpath. unfold sizePointerSlow. rewrite Hpath.
  rewrite sizeFields_sizecache.
  by destruct (IsValid (sizecacheOffset mi)).
Qed.

(** C4 (amended): when the type has a size-cache slot, a full size
    computation stores its total, converted to int32, into the slot,
    whether or not cache reuse was requested, and leaves the rest of the
    instance alone.  A following call with cache reuse returns the slot's
    value, which is the first total when that fits in 32 bits, and it
    does so whatever the fields of the table are: none is traversed.  A
    following full computation on the canonical path returns the first
    total again. *)
Theorem size_stores_and_reuses mi m opts opts2 :
  IsValid (sizecacheOffset mi) = true ->
  UseCachedSize opts2 = true ->
  let r := sizePointerSlow mi m opts in
  sizecache (snd r) = int32 (fst r)
  /\ fieldAt (snd r) = fieldAt m
  /\ unknownFields (snd r) = unknownFields m
  /\ extensionFields (snd r) = extensionFields m
  /\ sizePointer mi (Some (snd r)) opts2 = (int32 (fst r), Some (snd r))
  /\ (inInt32 (fst r) -> fst (sizePointer mi (Some (snd r)) opts2) = fst r)
  /\ (forall mi2,
        IsValid (sizecacheOffset mi2) = true ->
        sizePointer mi2 (Some (snd r)) opts2
        = sizePointer mi (Some (snd r)) opts2)
  /\ (ProtoLegacy && isMessageSet mi = false ->
      fst (sizePointerSlow mi (snd r) opts) = fst r).
Proof.
  intros Hv Hc r.
  pose proof (sizePointerSlow_stores mi m opts Hv) as Hst.
  pose proof (sizePointerSlow_slots mi m opts) as (Hf & Hu & He).
  fold r in Hst, Hf, Hu, He.
  assert (Hsp : sizePointer mi (Some (snd r)) opts2
                = (int32 (fst r), Some (snd r))).
  { unfold sizePointer. rewrite Hc, Hv. simpl. rewrite Hst.
    f_equal. apply int_id, inInt32_inInt, int32_range. }
  repeat split; try done.
  - intros Hr. rewrite Hsp. simpl. by apply int32_id.
  - intros mi2 Hv2. rewrite Hsp. unfold sizePointer.
    rewrite Hc, Hv2. simpl. rewrite Hst.
    f_equal. apply int_id, inInt32_inInt, int32_range.
  - intros Hpath. subst r.
    assert (E : snd (sizePointerSlow mi m opts)
                = storeSizecache m (int32 (fst (sizePointerSlow mi m opts)))).
    { unfold sizePointerSlow. by rewrite Hpath, Hv. }
    rewrite E at 1. by apply sizePointerSlow_sizecache.
Qed.

(** C10: with cache reuse requested and a size-cache slot in the type,
    size on a non-nil instance is the slot's current value, whatever it
    is; the value a full computation stores is the total converted to
    int32; and there is an instance with unknown bytes and a slot still at
    its initial 0 for which size with cache reuse is 0 while a full
    computation gives 1 and marshal appends one byte. *)
Theorem sizePointer_cached_unchecked mi m opts :
  UseCachedSize opts = true ->
  IsValid (sizecacheOffset mi) = true ->
  sizePointer mi (Some m) opts = (int (sizecache m), Some m)
  /\ (forall opts', sizecache (snd (sizePointerSlow mi m opts'))
                    = int32 (fst (sizePointerSlow mi m opts')))
  /\ exists mi0 m0 x,
       sizecache m0 = 0
       /\ unknownFields m0 = [x]
       /\ fst (sizePointer mi0 (Some m0) opts) = 0
       /\ (forall opts', UseCachedSize opts' = false ->
             fst (sizePointer mi0 (Some m0) opts') = 1)
       /\ marshalAppendPointer mi0 [] (Some m0) opts = Ret ([x], None).
Proof.
  intros Hc Hv. split; [|split].
  - unfold sizePointer. by rewrite Hc, Hv.
  - intros opts'. by apply sizePointerSlow_stores.
  - exists {| Desc := Desc mi; store := store mi; orderedCoderFields := [];
              denseCoderFields := []; coderFields := ∅;
              sizecacheOffset := 0; unknownOffset := 0;
              extensionOffset := invalidOffset;
              needsInitCheck := false; isMessageSet := false;
              numRequiredFields := 0 |},
           {| fieldAt := fieldAt m; sizecache := 0;
              unknownFields := [x00]; extensionFields := [] |},
           x00.
    repeat split.
    + unfold sizePointer. rewrite Hc. reflexivity.
    + intros opts' Hn. unfold sizePointer, sizePointerSlow. rewrite Hn.
      simpl. rewrite andb_false_r. reflexivity.
    + unfold marshalAppendPointer. simpl. rewrite andb_false_r. reflexivity.
Qed.
End SizeCache.

(** ** Size against marshal *)

Section SizeMarshal.
Context {storage : Storage} {codecs : Codecs}.

Lemma sumZ_perm (l l' : list Z) : l ≡ₚ l' -> sumZ l = sumZ l'.
Proof.
  unfold sumZ. induction 1; simpl; lia.
Qed.

Lemma sizeFields_marshalFields mi m opts fs b b' size :
  Forall (fun p => fieldCoderAgrees (deref mi p)
                     (fieldAt m (offset_ (deref mi p))) opts) fs ->
  marshalFields mi m opts fs b = (b', None) ->
  int (sizeFields mi m opts fs size)
  = int (size + (Z.of_nat (length b') - Z.of_nat (length b))).
Proof.
  intros Hag. revert b size.
  induction Hag as [|p fs Hp Hag IH]; intros b size; simpl.
  { intros [= <-]. f_equal. lia. }
  unfold fieldCoderAgrees, sizeOfField in Hp.
  destruct (pcf_marshal (funcs (deref mi p))) as [marshal|];
    destruct (pcf_size (funcs (deref mi p))) as [fsize|];
    destruct (isPointer (deref mi p)
              && elemIsNil (fieldAt m (offset_ (deref mi p))));
    try (by apply IH); specialize (Hp eq_refl).
  - specialize (Hp b).
    destruct (marshal b _ _ opts) as [b1 [err|]]; simpl in *; [done|].
    intros Hrest. rewrite (IH _ _ Hrest), int_add_l. f_equal.
    specialize (Hp eq_refl). lia.
  - specialize (Hp b).
    destruct (marshal b _ _ opts) as [b1 [err|]]; simpl in *; [done|].
    intros Hrest. rewrite (IH _ _ Hrest). f_equal.
    specialize (Hp eq_refl). lia.
  - intros Hrest. rewrite (IH _ _ Hrest), int_add_l. f_equal. lia.
Qed.

Lemma sizeExtensionsRange_sum (e : ExtMap) opts n :
  int (sizeExtensionsRange e opts n)
  = int (n + sumZ (map (fun kx => sizeOfExtension (snd kx) opts) e)).
Proof.
  revert n. induction e as [|[k x] e IH]; intros n.
  { simpl. f_equal. unfold sumZ. simpl. lia. }
  assert (Hsum : sumZ (map (fun kx => sizeOfExtension (snd kx) opts)
                         ((k, x) :: e))
                 = sizeOfExtension x opts
                   + sumZ (map (fun kx => sizeOfExtension (snd kx) opts) e))
    by reflexivity.
  rewrite Hsum. unfold sizeOfExtension at 1.
  cbn [sizeExtensionsRange]. cbv zeta.
  destruct (vcf_size (xi_funcs (getExtensionFieldInfo (xType x)))) as [size|].
  - rewrite IH, int_add_l. f_equal. lia.
  - rewrite IH. f_equal.
Qed.

Lemma runSteps_extensions_length opts (xs : list ExtensionField) b b' :
  Forall (fun x => extensionCoderAgrees x opts) xs ->
  runSteps (map (extensionStep opts) xs) b = Ret (b', None) ->
  Z.of_nat (length b')
  = Z.of_nat (length b) + sumZ (map (fun x => sizeOfExtension x opts) xs).
Proof.
  intros Hag. revert b.
  induction Hag as [|x xs Hx Hag IH]; intros b; simpl.
  { intros [= <-]. unfold sumZ. simpl. lia. }
  unfold extensionStep at 1.
  destruct (marshalExtension b x opts) as [[b1 [err|]]|msg] eqn:E;
    simpl; [done| |done].
  intros Hrest. rewrite (IH _ Hrest), (Hx b b1 E).
  unfold sumZ. simpl. lia.
Qed.

Lemma sortedEntries_perm (e : ExtMap) : sortedEntries e ≡ₚ map snd e.
Proof. unfold sortedEntries. by rewrite sortSlice_Permutation. Qed.

Lemma runSteps_app_ok (s1 s2 : list step) b b' :
  runSteps (s1 ++ s2) b = Ret (b', None) ->
  exists b1, runSteps s1 b = Ret (b1, None) /\ runSteps s2 b1 = Ret (b', None).
Proof.
  rewrite runSteps_app.
  destruct (runSteps s1 b) as [[b1 [err|]]|msg]; simpl; [done| |done].
  intros Hrest. by exists b1.
Qed.

Lemma sizePointerSlow_canonical mi m opts :
  ProtoLegacy && isMessageSet mi = false ->
  fst (sizePointerSlow mi m opts)
  = let size :=
      if IsValid (extensionOffset mi)
      then int (0 + sizeExtensions mi (Some (extensionFields m)) opts)
      else 0 in
    let size := sizeFields mi m opts (orderedCoderFields mi) size in
    if IsValid (unknownOffset mi)
    then int (size + Z.of_nat (length (unknownFields m)))
    else size.
Proof.
  intros Hpath. unfold sizePointerSlow. rewrite Hpath. cbv zeta.
  by destruct (IsValid (sizecacheOffset mi)).
Qed.

(** Whatever the walk starts from, it returns an [int]. *)
Lemma sizeFields_int mi m opts fs size :
  int size = size -> int (sizeFields mi m opts fs size) = sizeFields mi m opts fs size.
Proof.
  revert size. induction fs as [|p fs IH]; intros size Hs; simpl; [done|].
  destruct (pcf_size (funcs (deref mi p))); [|by apply IH].
  destruct (isPointer (deref mi p) && elemIsNil _); [by apply IH|].
  apply IH, int_int.
Qed.

(** The canonical walk, without the cache: the total is the number of
    bytes appended, as an [int]. *)
Lemma sizePointerSlow_marshal_canonical mi m opts b b' :
  ProtoLegacy && isMessageSet mi = false ->
  (isMessageSet mi = true -> ProtoLegacy = true) ->
  wfExtMap (extensionFields m) ->
  codersAgree mi m opts ->
  marshalAppendPointer mi b (Some m) opts = Ret (b', None) ->
  fst (sizePointerSlow mi m opts)
  = int (Z.of_nat (length b') - Z.of_nat (length b)).
Proof.
  intros Hpath Hslip Hwf Hag Hm.
  unfold codersAgree in Hag. rewrite Hpath in Hag.
  destruct Hag as [Hxag Hfag].
  assert (Hms : isMessageSet mi = false).
  { destruct (isMessageSet mi); [|done].
    rewrite (Hslip eq_refl) in Hpath. done. }
  rewrite marshalAppendPointer_steps in Hm by done.
  unfold marshalSteps in Hm. rewrite Hms, andb_true_r in Hm.
  apply runSteps_app_ok in Hm as (b1 & Hext & Hm).
  apply runSteps_app_ok in Hm as (b2 & Hfs & Hun).
  rewrite <- marshalFields_steps in Hfs. injection Hfs as Hfs.
  rewrite sizePointerSlow_canonical by done. cbv zeta.
  set (s1 := if IsValid (extensionOffset mi) then _ else 0).
  assert (E1 : int s1 = int (Z.of_nat (length b1) - Z.of_nat (length b))
               /\ int s1 = s1).
  { subst s1. destruct (IsValid (extensionOffset mi)).
    - specialize (Hxag eq_refl).
      rewrite int_int. split; [|done]. unfold sizeExtensions.
      apply runSteps_extensions_length in Hext.
      + rewrite Z.add_0_l, sizeExtensionsRange_sum. f_equal.
        rewrite Hext, Z.add_0_l.
        rewrite (sumZ_perm _ _
          (fmap_Permutation (fun x => sizeOfExtension x opts) _ _
             (sortedEntries_perm (extensionFields m)))).
        rewrite <- list_fmap_compose. unfold compose.
        match goal with |- ?A = _ + ?B - _ => change B with A end. lia.
      + rewrite sortedEntries_perm.
        by apply (proj2 (Forall_fmap snd
                           (fun x => extensionCoderAgrees x opts) _)).
    - simpl in Hext. injection Hext as <-. split; [f_equal; lia | done]. }
  destruct E1 as [E1 E1'].
  pose proof (sizeFields_marshalFields mi m opts _ b1 b2 s1 Hfag Hfs) as E3.
  assert (E4 : int (sizeFields mi m opts (orderedCoderFields mi) s1)
               = int (Z.of_nat (length b2) - Z.of_nat (length b))).
  { rewrite E3, <- int_add_l, E1, int_add_l. f_equal. lia. }
  destruct (IsValid (unknownOffset mi)); simpl in Hun.
  - injection Hun as <-.
    rewrite <- int_add_l, E4, int_add_l. f_equal.
    rewrite length_app. lia.
  - injection Hun as <-. rewrite <- E4. symmetry.
    by apply sizeFields_int.
Qed.

Lemma full_size_is_appended mi m opts b b' :
  (isMessageSet mi = true -> ProtoLegacy = true) ->
  codersAgree mi m opts ->
  wfExtMap (extensionFields m) ->
  marshalAppendPointer mi b (Some m) opts = Ret (b', None) ->
  inInt (Z.of_nat (length b)) -> inInt (Z.of_nat (length b')) ->
  Z.of_nat (length b')
  = Z.of_nat (length b) + fst (sizePointerSlow mi m opts).
Proof.
  intros Hslip Hag Hwf Hm Hb Hb'.
  destruct (ProtoLegacy && isMessageSet mi) eqn:Hpath.
  - unfold codersAgree in Hag. rewrite Hpath in Hag.
    specialize (Hag b).
    revert Hm. unfold marshalAppendPointer, sizePointerSlow.
    rewrite Hpath. intros [= Hm].
    rewrite Hm in Hag. simpl in Hag.
    specialize (Hag eq_refl).
    by destruct (IsValid (sizecacheOffset mi)).
  - rewrite (sizePointerSlow_marshal_canonical mi m opts b b') by done.
    rewrite int_id; [lia|]. unfold inInt in *. lia.
Qed.

(** C1 (amended): a nil instance marshals to no bytes and sizes to 0, and
    with cache reuse on and a size-cache slot present the size of a
    non-nil instance is the slot's current value; both hold of every table
    and every coder.  For a non-nil instance [m] whose marshal succeeds,
    suppose that the coders this call runs (the message-set codec, or the
    coders of the extension entries and of the fields, on the values [m]
    holds and under the options of the call) each report as their size the
    number of bytes they append, and that the type is a message set only
    where legacy support is compiled in.  Then the number of bytes marshal
    appends is the value of size when cache reuse is off or the type has
    no size-cache slot; and it is the value of size with cache reuse on
    as well, provided that the slot holds what a full size computation of
    the instance stores and that number is below 2^31.  The extension map
    has the distinct int32 keys of a Go map and the buffer lengths are Go
    ints. *)
Theorem size_matches_marshal mi opts :
  (forall b, marshalAppendPointer mi b None opts = Ret (b, None))
  /\ sizePointer mi None opts = (0, None)
  /\ (forall m,
        UseCachedSize opts && IsValid (sizecacheOffset mi) = true ->
        fst (sizePointer mi (Some m) opts) = int (sizecache m))
  /\ (forall m b b',
        marshalAppendPointer mi b (Some m) opts = Ret (b', None) ->
        codersAgree mi m opts ->
        (isMessageSet mi = true -> ProtoLegacy = true) ->
        wfExtMap (extensionFields m) ->
        inInt (Z.of_nat (length b)) -> inInt (Z.of_nat (length b')) ->
        (UseCachedSize opts && IsValid (sizecacheOffset mi) = false ->
         Z.of_nat (length b') - Z.of_nat (length b)
         = fst (sizePointer mi (Some m) opts))
        /\ (sizecache m = int32 (fst (sizePointerSlow mi m opts)) ->
            inInt32 (Z.of_nat (length b') - Z.of_nat (length b)) ->
            Z.of_nat (length b') - Z.of_nat (length b)
            = fst (sizePointer mi (Some m) opts))).
Proof.
  split; [done|]. split; [done|]. split.
  { intros m Hc. unfold sizePointer. by rewrite Hc. }
  intros m b b' Hm Hag Hslip Hwf Hb Hb'.
  pose proof (full_size_is_appended mi m opts b b'
                Hslip Hag Hwf Hm Hb Hb') as Hfull.
  split.
  - intros Hnc. unfold sizePointer. rewrite Hnc. cbn [fst]. lia.
  - intros Hslot Hr. unfold sizePointer.
    destruct (UseCachedSize opts && IsValid (sizecacheOffset mi));
      [|cbn [fst]; lia].
    cbn [fst]. rewrite Hslot.
    replace (fst (sizePointerSlow mi m opts))
      with (Z.of_nat (length b') - Z.of_nat (length b)) by lia.
    rewrite int32_id by done.
    by rewrite int_id by (by apply inInt32_inInt).
Qed.
End SizeMarshal.

(** ** The table builder: the loop over the fields *)

Section BuildLoop.
Context {storage : Storage} {registry : Registry}.

Lemma num_newCoderFieldInfo si fd : num (newCoderFieldInfo si fd) = Number fd.
Proof.
  unfold newCoderFieldInfo.
  destruct (ContainingOneof fd); [done|]. by destruct (IsWeak fd).
Qed.

Lemma deref_addCoderField si mi fd q :
  deref (addCoderField si mi fd) q
  = if Nat.eqb q (next (store mi)) then newCoderFieldInfo si fd
    else deref mi q.
Proof. done. Qed.

(** What the loop over the descriptor's fields leaves in the table, for
    any table it starts from. *)
Lemma fold_addCoderField si fds : forall mi,
  let mi' := fold_left (addCoderField si) fds mi in
  let k := next (store mi) in
  (Desc mi' = Desc mi
   /\ unknownOffset mi' = unknownOffset mi
   /\ extensionOffset mi' = extensionOffset mi
   /\ isMessageSet mi' = isMessageSet mi)
  /\ orderedCoderFields mi'
     = orderedCoderFields mi ++ seq k (length fds)
  /\ (forall i fd, fds !! i = Some fd ->
        num (deref mi' (k + i)%nat) = Number fd)
  /\ (NoDup (map Number fds) ->
      forall i fd, fds !! i = Some fd ->
        coderFields mi' !! Number fd = Some (k + i)%nat)
  /\ (forall n, n ∉ map Number fds ->
        coderFields mi' !! n = coderFields mi !! n)
  /\ (forall q, (q < k)%nat -> deref mi' q = deref mi q).
Proof.
  induction fds as [|fd fds IH]; intros mi; cbv zeta.
  { simpl. rewrite app_nil_r. repeat split; try done. }
  cbn [fold_left].
  specialize (IH (addCoderField si mi fd)). cbv zeta in IH.
  destruct IH as ((HD & HU & HE & HM) & Hord & Hnum & Hmap & Hmiss & Hold).
  change (next (store (addCoderField si mi fd)))
    with (S (next (store mi))) in *.
  split; [done|]. split; [|split; [|split; [|split]]].
  - rewrite Hord. cbn [addCoderField setCoderFields orderedCoderFields
                       alloc fst length seq].
    by rewrite <- app_assoc.
  - intros [|i] fd' Hi; simpl in Hi.
    + injection Hi as <-. rewrite Nat.add_0_r, Hold by lia.
      rewrite deref_addCoderField, Nat.eqb_refl.
      apply num_newCoderFieldInfo.
    + replace (next (store mi) + S i)%nat
        with (S (next (store mi)) + i)%nat by lia.
      by apply Hnum.
  - intros Hnd. apply NoDup_cons in Hnd as [Hfd Hnd].
    intros [|i] fd' Hi; simpl in Hi.
    + injection Hi as <-. rewrite Hmiss by done.
      cbn [addCoderField setCoderFields coderFields alloc fst].
      rewrite num_newCoderFieldInfo, Nat.add_0_r.
      apply lookup_insert_eq.
    + replace (next (store mi) + S i)%nat
        with (S (next (store mi)) + i)%nat by lia.
      by apply Hmap.
  - intros n Hn. rewrite Hmiss.
    + cbn [addCoderField setCoderFields coderFields alloc fst].
      rewrite num_newCoderFieldInfo. apply lookup_insert_ne.
      intros Heq. apply Hn. rewrite <- Heq. simpl. left.
    + intros Hin. apply Hn. simpl. by right.
  - intros q Hq. rewrite Hold by lia.
    rewrite deref_addCoderField.
    destruct (Nat.eqb_spec q (next (store mi))); [lia|done].
Qed.

Lemma fold_initOneofFieldCoders (Hframe : oneofInitFrame) si ods : forall mi,
  let mi' := fold_left (fun mi od => initOneofFieldCoders mi od si) ods mi in
  Desc mi' = Desc mi
  /\ orderedCoderFields mi' = orderedCoderFields mi
  /\ coderFields mi' = coderFields mi
  /\ unknownOffset mi' = unknownOffset mi
  /\ extensionOffset mi' = extensionOffset mi
  /\ isMessageSet mi' = isMessageSet mi
  /\ forall p, num (deref mi' p) = num (deref mi p).
Proof.
  induction ods as [|od ods IH]; intros mi; cbv zeta; [done|].
  cbn [fold_left].
  specialize (IH (initOneofFieldCoders mi od si)). cbv zeta in IH.
  destruct IH as (H1 & H2 & H3 & H4 & H5 & H6 & H7).
  destruct (Hframe mi od si) as (G1 & G2 & G3 & G4 & G5 & G6 & G7).
  repeat split; try congruence.
Qed.
End BuildLoop.

(** ** The table builder: the dense array *)

Section BuildDense.
Context {storage : Storage} {registry : Registry}.

Lemma last_default_cons (x : Z) (l : list Z) md :
  default md (last (x :: l)) = default x (last l).
Proof. rewrite last_cons. by destruct (last l). Qed.

Lemma scanMaxDense_selected mi ps : forall md,
  0 <= md < 2 ^ 30 ->
  Forall (fun p => 0 <= fieldKey mi p < 2 ^ 30) ps ->
  scanMaxDense mi ps md
  = default md (last (denseSelected md (map (fieldKey mi) ps))).
Proof.
  induction ps as [|p ps IH]; intros md Hmd Hps; [done|].
  apply Forall_cons in Hps as [Hp Hps].
  cbn [scanMaxDense map denseSelected]. fold (fieldKey mi p).
  rewrite int32_id by (unfold inInt32; lia).
  destruct ((16 <=? fieldKey mi p) && (2 * md <=? fieldKey mi p)); [done|].
  rewrite last_default_cons. by apply IH.
Qed.

(** The numbers taken are a prefix of the list, and what follows the
    prefix starts with a number that is at least 16 and at least twice
    the last number taken. *)
Lemma denseSelected_prefix nums : forall md,
  exists rest,
    nums = denseSelected md nums ++ rest
    /\ match rest with
       | [] => True
       | r :: _ =>
           16 <= r /\ 2 * default md (last (denseSelected md nums)) <= r
       end.
Proof.
  induction nums as [|n nums IH]; intros md; [by exists []|].
  cbn [denseSelected].
  destruct ((16 <=? n) && (2 * md <=? n)) eqn:E.
  - exists (n :: nums). split; [done|]. simpl.
    apply andb_true_iff in E as [E1 E2]. lia.
  - destruct (IH n) as (rest & Hsplit & Hrest).
    exists rest. split; [simpl; by f_equal|].
    by rewrite last_default_cons.
Qed.

(** In an ascending list the last number taken bounds every number
    taken. *)
Lemma denseSelected_bounded nums : forall md,
  StronglySorted Z.lt nums ->
  Forall (fun n => md <= n) nums ->
  Forall (fun n => md <= n <= default md (last (denseSelected md nums)))
    (denseSelected md nums).
Proof.
  induction nums as [|n nums IH]; intros md Hs Hlb; [constructor|].
  cbn [denseSelected].
  apply StronglySorted_cons in Hs as [Hn Hs].
  apply Forall_cons in Hlb as [Hmd Hlb].
  destruct ((16 <=? n) && (2 * md <=? n)); [constructor|].
  assert (Hn' : Forall (fun k => n <= k) nums).
  { eapply Forall_impl; [exact Hn|]. simpl. lia. }
  specialize (IH n Hs Hn'). rewrite last_default_cons.
  constructor.
  - split; [done|]. destruct (denseSelected n nums) as [|k l] eqn:E.
    + simpl. lia.
    + apply Forall_forall with (x := default n (last (k :: l))) in IH.
      * lia.
      * destruct (last (k :: l)) as [y|] eqn:El.
        -- simpl. by apply last_Some_elem_of.
        -- by apply last_None in El.
  - eapply Forall_impl; [exact IH|]. simpl. lia.
Qed.

Lemma denseFold_length mi sel : forall dense,
  length (denseFold mi sel dense) = length dense.
Proof.
  induction sel as [|p sel IH]; intros dense; [done|].
  unfold denseFold in *. cbn [fold_left]. by rewrite IH, length_insert.
Qed.

Lemma fillDense_prefix mi sel rest : forall dense,
  Z.of_nat (length dense) < 2 ^ 63 ->
  Forall (fun p => 0 <= fieldKey mi p < Z.of_nat (length dense)) sel ->
  match rest with
  | [] => True
  | r :: _ => Z.of_nat (length dense) < fieldKey mi r < 2 ^ 63
  end ->
  fillDense mi (sel ++ rest) dense = Ret (denseFold mi sel dense).
Proof.
  induction sel as [|p sel IH]; intros dense Hlen Hsel Hrest.
  - destruct rest as [|r rest]; [done|].
    cbn [app fillDense]. fold (fieldKey mi r).
    rewrite int_id by (unfold inInt; lia).
    destruct (Z.ltb_spec (Z.of_nat (length dense)) (fieldKey mi r)); [done|lia].
  - apply Forall_cons in Hsel as [Hp Hsel].
    cbn [app fillDense]. fold (fieldKey mi p).
    rewrite int_id by (unfold inInt; lia).
    destruct (Z.ltb_spec (Z.of_nat (length dense)) (fieldKey mi p)); [lia|].
    destruct (Z.ltb_spec (fieldKey mi p) 0); [lia|].
    destruct (Z.leb_spec (Z.of_nat (length dense)) (fieldKey mi p)); [lia|].
    cbn [orb]. rewrite IH; [done|..]; by rewrite length_insert.
Qed.

Lemma denseFold_lookup_other mi sel (i : nat) : forall dense,
  Forall (fun p => Z.to_nat (fieldKey mi p) <> i) sel ->
  denseFold mi sel dense !! i = dense !! i.
Proof.
  induction sel as [|p sel IH]; intros dense Hsel; [done|].
  apply Forall_cons in Hsel as [Hp Hsel].
  unfold denseFold in *. cbn [fold_left].
  rewrite IH by done. by apply list_lookup_insert_ne.
Qed.

Lemma denseFold_lookup_elem mi sel p : forall dense,
  NoDup (map (fun q => Z.to_nat (fieldKey mi q)) sel) ->
  p ∈ sel ->
  (Z.to_nat (fieldKey mi p) < length dense)%nat ->
  denseFold mi sel dense !! Z.to_nat (fieldKey mi p) = Some (Some p).
Proof.
  induction sel as [|q sel IH]; intros dense Hnd Hin Hlen.
  { by apply elem_of_nil in Hin. }
  cbn [map] in Hnd. apply NoDup_cons in Hnd as [Hq Hnd].
  change (denseFold mi (q :: sel) dense)
    with (denseFold mi sel (<[Z.to_nat (fieldKey mi q) := Some q]> dense)).
  apply elem_of_cons in Hin as [->|Hin].
  - rewrite denseFold_lookup_other.
    + by apply list_lookup_insert_eq.
    + apply Forall_forall. intros r Hr Heq. apply Hq.
      rewrite <- Heq. apply list_elem_of_fmap. by exists r.
  - apply IH; [done..|]. by rewrite length_insert.
Qed.
End BuildDense.

(** ** The table builder: sorting and indexing *)

Section BuildIndex.
Context {storage : Storage} {registry : Registry}.

Lemma lessByNumber_keys mi (ps : list cfptr) :
  map (fieldKey mi) (sortSlice (lessByNumber mi) ps)
  = sortInts (map (fieldKey mi) ps).
Proof. exact (sortSlice_map (fieldKey mi) Z.ltb ps). Qed.

(** What the third part of makeCoderMethods makes of a table whose
    records carry valid, pairwise distinct numbers: the sorted list splits
    into the records entered in the dense array and the rest, whose
    numbers lie beyond the array. *)
Lemma indexCoderFields_spec fields mi :
  NoDup (map (fieldKey mi) (orderedCoderFields mi)) ->
  Forall (fun p => 1 <= fieldKey mi p < 2 ^ 29) (orderedCoderFields mi) ->
  let ord1 := sortSlice (lessByNumber mi) (orderedCoderFields mi) in
  let maxDense := default 0 (last (denseSelected 0 (map (fieldKey mi) ord1))) in
  exists mi' sel rest,
    indexCoderFields fields mi = Ret mi'
    /\ store mi' = store mi
    /\ Desc mi' = Desc mi
    /\ coderFields mi' = coderFields mi
    /\ isMessageSet mi' = isMessageSet mi
    /\ orderedCoderFields mi'
       = (if (0 <? length (Oneofs (Desc mi)))%nat
          then sortSlice (lessByDescriptor fields mi) ord1 else ord1)
    /\ ord1 = sel ++ rest
    /\ map (fieldKey mi) sel = denseSelected 0 (map (fieldKey mi) ord1)
    /\ denseCoderFields mi'
       = denseFold mi sel (replicate (Z.to_nat (maxDense + 1)) None)
    /\ 0 <= maxDense < 2 ^ 29
    /\ Forall (fun p => fieldKey mi p <= maxDense) sel
    /\ Forall (fun p => maxDense + 1 < fieldKey mi p) rest.
Proof.
  intros Hnd Hrange ord1 maxDense.
  assert (Hperm : ord1 ≡ₚ orderedCoderFields mi)
    by apply sortSlice_Permutation.
  assert (Hkeys : map (fieldKey mi) ord1
                  = sortInts (map (fieldKey mi) (orderedCoderFields mi)))
    by apply lessByNumber_keys.
  assert (Hsorted : StronglySorted Z.lt (map (fieldKey mi) ord1)).
  { rewrite Hkeys. by apply sortInts_sorted. }
  assert (Hrange1 : Forall (fun p => 1 <= fieldKey mi p < 2 ^ 29) ord1)
    by (by rewrite Hperm).
  assert (Hrange1' : Forall (fun n => 1 <= n < 2 ^ 29) (map (fieldKey mi) ord1)).
  { clear -Hrange1. induction Hrange1; constructor; auto. }
  destruct (denseSelected_prefix (map (fieldKey mi) ord1) 0)
    as (restN & Hsplit & Hhead).
  fold maxDense in Hhead.
  destruct (map_eq_app _ _ _ _ Hsplit) as (sel & rest & Hord & Hsel & Hrest).
  assert (Hbound : Forall (fun n => 0 <= n <= maxDense)
                     (denseSelected 0 (map (fieldKey mi) ord1))).
  { apply denseSelected_bounded; [done|].
    eapply Forall_impl; [exact Hrange1'|]. simpl. lia. }
  assert (HmaxD : 0 <= maxDense < 2 ^ 29).
  { subst maxDense.
    destruct (last (denseSelected 0 (map (fieldKey mi) ord1))) as [y|] eqn:E;
      [|simpl; lia].
    simpl. apply last_Some_elem_of in E.
    rewrite Forall_forall in Hrange1'.
    assert (Hy : y ∈ map (fieldKey mi) ord1).
    { rewrite Hsplit. apply elem_of_app. by left. }
    specialize (Hrange1' y Hy). lia. }
  assert (Hselb : Forall (fun p => fieldKey mi p <= maxDense) sel).
  { rewrite <- Hsel in Hbound. clear -Hbound.
    induction sel; [constructor|].
    cbn [map] in Hbound. apply Forall_cons in Hbound as [? ?].
    constructor; [lia|auto]. }
  assert (Hrestb : Forall (fun p => maxDense + 1 < fieldKey mi p) rest).
  { rewrite Hsplit in Hsorted.
    apply StronglySorted_app_1_r in Hsorted.
    rewrite <- Hrest in Hsorted, Hhead. clear -Hsorted Hhead HmaxD.
    destruct rest as [|r rest]; [constructor|].
    cbn [map] in *. apply StronglySorted_cons in Hsorted as [Hr _].
    constructor; [lia|].
    clear -Hr Hhead HmaxD. induction rest; [constructor|].
    cbn [map] in Hr. apply Forall_cons in Hr as [? ?].
    constructor; [lia|auto]. }
  set (mi4 := setOrdered mi ord1).
  assert (Hscan : scanMaxDense mi4 ord1 0 = maxDense).
  { rewrite scanMaxDense_selected; [done|lia|].
    eapply Forall_impl; [exact Hrange1|].
    intros p. change (fieldKey mi4 p) with (fieldKey mi p).
    cbv beta. lia. }
  assert (Hfill :
    fillDense mi4 ord1 (replicate (Z.to_nat (maxDense + 1)) None)
    = Ret (denseFold mi sel (replicate (Z.to_nat (maxDense + 1)) None))).
  { rewrite Hord.
    change (denseFold mi) with (denseFold mi4).
    apply fillDense_prefix.
    - rewrite length_replicate. lia.
    - rewrite length_replicate. eapply Forall_impl.
      + apply Forall_and. split; [exact Hselb|].
        rewrite Hord in Hrange1. apply Forall_app in Hrange1 as [Hs _].
        exact Hs.
      + intros p. change (fieldKey mi4 p) with (fieldKey mi p).
        cbv beta. lia.
    - destruct rest as [|r rest]; [done|].
      rewrite length_replicate.
      apply Forall_cons in Hrestb as [Hr _].
      rewrite Hord in Hrange1. apply Forall_app in Hrange1 as [_ Hs].
      apply Forall_cons in Hs as [Hr' _].
      change (fieldKey mi4 r) with (fieldKey mi r). lia. }
  assert (Hrun : forall b : bool,
    (0 <? length (Oneofs (Desc mi)))%nat = b ->
    indexCoderFields fields mi
    = Ret (let mi5 := setDense mi4
                        (denseFold mi sel
                           (replicate (Z.to_nat (maxDense + 1)) None)) in
           let mi6 := if b
                      then setOrdered mi5
                             (sortSlice (lessByDescriptor fields mi5) ord1)
                      else mi5 in
           setFlags mi6 (needsInitCheckOf (Desc mi6)) (isMessageSet mi6))).
  { intros b Hb.
    unfold indexCoderFields. cbv zeta. fold ord1. fold mi4.
    change (orderedCoderFields mi4) with ord1.
    rewrite Hscan, int32_id by (unfold inInt32; lia).
    destruct (Z.ltb_spec (maxDense + 1) 0); [lia|].
    rewrite Hfill. cbn [bind].
    change (Desc (setDense mi4 ?d)) with (Desc mi).
    change (orderedCoderFields (setDense mi4 ?d)) with ord1.
    by rewrite Hb. }
  destruct (0 <? length (Oneofs (Desc mi)))%nat eqn:Eo;
    (eexists _, sel, rest; split; [exact (Hrun _ eq_refl)|]);
    repeat split; try done; lia.
Qed.
End BuildIndex.

(** ** The table builder: the whole construction *)

Section BuildTable.
Context {storage : Storage} {registry : Registry}.

Lemma collectCoderFields_frame (Hframe : oneofInitFrame) mi si :
  let mi' := collectCoderFields mi si in
  Desc mi' = Desc mi
  /\ unknownOffset mi' = si_unknownOffset si
  /\ extensionOffset mi' = si_extensionOffset si
  /\ isMessageSet mi' = isMessageSet mi.
Proof.
  unfold collectCoderFields. cbv zeta.
  match goal with
  | |- context [fold_left _ (Oneofs (Desc ?m1)) ?m1] =>
      destruct (fold_initOneofFieldCoders Hframe si (Oneofs (Desc m1)) m1)
        as (H1 & _ & _ & H4 & H5 & H6 & _)
  end.
  match goal with
  | |- context [fold_left (addCoderField si) ?fds ?m0] =>
      destruct (fold_addCoderField si fds m0) as ((G1 & G2 & G3 & G4) & _)
  end.
  cbv zeta in *.
  cbn [Desc unknownOffset extensionOffset isMessageSet
       setCoderFields setOffsets] in *.
  repeat split; congruence.
Qed.

Lemma collectCoderFields_spec (Hframe : oneofInitFrame) d si :
  NoDup (map Number (Fields d)) ->
  let mi := collectCoderFields (newMessageInfo d) si in
  orderedCoderFields mi = seq 0 (length (Fields d))
  /\ (forall i fd, Fields d !! i = Some fd ->
        fieldKey mi i = Number fd /\ coderFields mi !! Number fd = Some i)
  /\ (forall n, n ∉ map Number (Fields d) -> coderFields mi !! n = None).
Proof.
  intros Hnd.
  set (mi0 := setCoderFields
                (setOffsets (newMessageInfo d) (si_sizecacheOffset si)
                   (si_unknownOffset si) (si_extensionOffset si))
                emptyStore [] ∅).
  set (mi1 := fold_left (addCoderField si) (Fields d) mi0).
  change (collectCoderFields (newMessageInfo d) si)
    with (fold_left (fun mi od => initOneofFieldCoders mi od si)
            (Oneofs (Desc mi1)) mi1).
  cbv zeta.
  destruct (fold_initOneofFieldCoders Hframe si (Oneofs (Desc mi1)) mi1)
    as (_ & H2 & H3 & _ & _ & _ & H7).
  destruct (fold_addCoderField si (Fields d) mi0)
    as (_ & Hord & Hnum & Hmap & Hmiss & _).
  fold mi1 in Hord, Hnum, Hmap, Hmiss.
  change (next (store mi0)) with 0%nat in *.
  change (orderedCoderFields mi0) with (@nil cfptr) in Hord.
  change (coderFields mi0) with (∅ : gmap Z cfptr) in Hmiss.
  split; [by rewrite H2, Hord|]. split.
  - intros i fd Hi. unfold fieldKey. rewrite H7, H3. split.
    + by apply (Hnum i).
    + by apply (Hmap Hnd i).
  - intros n Hn. rewrite H3, Hmiss by done. apply lookup_empty.
Qed.

(** C9: building the coder table of a type whose descriptor matches the
    message-set convention panics when the struct has no extension slot,
    or no unknown-bytes slot: the builder returns no table, so that no
    encoding path, canonical or other, is ever taken for the type. *)
Theorem messageSet_build_fails mi t si :
  oneofInitFrame ->
  IsMessageSet (Desc mi) = true ->
  IsValid (si_extensionOffset si) = false
  \/ IsValid (si_unknownOffset si) = false ->
  makeCoderMethods mi t si
    = Panic (FullName (Desc mi)
             ++ (if IsValid (si_extensionOffset si)
                 then ": MessageSet with no unknown field"
                 else ": MessageSet with no extensions field"))
  /\ forall mi', makeCoderMethods mi t si <> Ret mi'.
Proof.
  intros Hframe Hms Hslots.
  destruct (collectCoderFields_frame Hframe mi si) as (HD & HU & HE & _).
  cbv zeta in *.
  assert (E : makeCoderMethods mi t si
              = Panic (FullName (Desc mi)
                       ++ (if IsValid (si_extensionOffset si)
                           then ": MessageSet with no unknown field"
                           else ": MessageSet with no extensions field"))).
  { unfold makeCoderMethods. cbv zeta. unfold checkMessageSet.
    rewrite HD, HU, HE, Hms.
    destruct (IsValid (si_extensionOffset si)); [|done].
    destruct Hslots as [?|Hu]; [done|]. by rewrite Hu. }
  split; [done|]. intros mi'. by rewrite E.
Qed.

Lemma collected_keys (Hframe : oneofInitFrame) d si :
  NoDup (map Number (Fields d)) ->
  map (fieldKey (collectCoderFields (newMessageInfo d) si))
    (seq 0 (length (Fields d)))
  = map Number (Fields d).
Proof.
  intros Hnd.
  destruct (collectCoderFields_spec Hframe d si Hnd) as (_ & Hkey & _).
  cbv zeta in Hkey.
  apply list_eq. intros i.
  change (map ?f ?l) with (f <$> l).
  rewrite !list_lookup_fmap.
  destruct (Fields d !! i) as [fd|] eqn:E; simpl.
  - rewrite lookup_seq_lt by (by eapply lookup_lt_Some).
    simpl. f_equal. by apply Hkey.
  - rewrite lookup_seq_ge; [done|]. by apply lookup_ge_None.
Qed.

(** The table makeCoderMethods builds for a descriptor with valid field
    numbers, told in terms of the records collected by its first part. *)
Lemma makeCoderMethods_built (Hframe : oneofInitFrame) d t si :
  validNumbers d ->
  messageSetSlots d si ->
  let mi := collectCoderFields (newMessageInfo d) si in
  let ord1 := sortSlice (lessByNumber mi) (seq 0 (length (Fields d))) in
  let maxDense := default 0 (last (denseSelected 0 (map (fieldKey mi) ord1))) in
  exists mi' sel rest,
    makeCoderMethods (newMessageInfo d) t si = Ret mi'
    /\ (forall p, fieldKey mi' p = fieldKey mi p)
    /\ Desc mi' = d
    /\ coderFields mi' = coderFields mi
    /\ isMessageSet mi' = IsMessageSet d
    /\ orderedCoderFields mi'
       = (if (0 <? length (Oneofs d))%nat
          then sortSlice (lessByDescriptor (Fields d) mi) ord1 else ord1)
    /\ ord1 = sel ++ rest
    /\ map (fieldKey mi) sel = denseSelected 0 (map (fieldKey mi) ord1)
    /\ denseCoderFields mi'
       = denseFold mi sel (replicate (Z.to_nat (maxDense + 1)) None)
    /\ 0 <= maxDense < 2 ^ 29
    /\ Forall (fun p => fieldKey mi p <= maxDense) sel
    /\ Forall (fun p => maxDense + 1 < fieldKey mi p) rest.
Proof.
  intros [Hnd Hrange] Hslots mi ord1 maxDense.
  destruct (collectCoderFields_frame Hframe (newMessageInfo d) si)
    as (HD & HU & HE & HM).
  destruct (collectCoderFields_spec Hframe d si Hnd) as (Hord & _ & _).
  pose proof (collected_keys Hframe d si Hnd) as Hkeys.
  cbv zeta in *. fold mi in HD, HU, HE, HM, Hord, Hkeys.
  change (Desc (newMessageInfo d)) with d in HD.
  change (isMessageSet (newMessageInfo d)) with false in HM.
  assert (Hnd' : NoDup (map (fieldKey mi) (orderedCoderFields mi)))
    by (by rewrite Hord, Hkeys).
  assert (Hrange' : Forall (fun p => 1 <= fieldKey mi p < 2 ^ 29)
                      (orderedCoderFields mi)).
  { rewrite Hord. rewrite <- Hkeys in Hrange. clear -Hrange.
    induction (seq 0 (length (Fields d))); [constructor|].
    cbn [map] in Hrange. apply Forall_cons in Hrange as [? ?].
    constructor; auto. }
  unfold makeCoderMethods. cbv zeta. fold mi. unfold checkMessageSet.
  change (Fields (Desc (newMessageInfo d))) with (Fields d).
  rewrite HD, HU, HE.
  destruct (IsMessageSet d) eqn:Hms.
  - destruct (Hslots Hms) as [-> ->]. cbn [negb bind].
    destruct (indexCoderFields_spec (Fields d)
                (setFlags mi (needsInitCheck mi) true) Hnd' Hrange')
      as (mi' & sel & rest & Hrun & Hst & G).
    cbv zeta in G.
    change (orderedCoderFields (setFlags mi (needsInitCheck mi) true))
      with (orderedCoderFields mi) in G.
    rewrite Hord in G.
    change (Desc (setFlags mi (needsInitCheck mi) true)) with (Desc mi) in G.
    rewrite HD in G.
    exists mi', sel, rest. split; [done|]. split.
    { intros p. unfold fieldKey, deref. by rewrite Hst. }
    exact G.
  - cbn [bind].
    destruct (indexCoderFields_spec (Fields d) mi Hnd' Hrange')
      as (mi' & sel & rest & Hrun & Hst & G).
    cbv zeta in G. rewrite Hord, HD, HM in G.
    exists mi', sel, rest. split; [done|]. split.
    { intros p. unfold fieldKey, deref. by rewrite Hst. }
    exact G.
Qed.

Lemma NoDup_to_nat_keys (f : cfptr -> Z) (l : list cfptr) :
  NoDup (map f l) -> Forall (fun p => 0 <= f p) l ->
  NoDup (map (fun q => Z.to_nat (f q)) l).
Proof.
  induction l as [|p l IH]; intros Hnd Hpos; [constructor|].
  cbn [map] in *. apply NoDup_cons in Hnd as [Hp Hnd].
  apply Forall_cons in Hpos as [Hp0 Hpos].
  apply NoDup_cons. split; [|by apply IH].
  intros Hin. apply Hp.
  apply list_elem_of_fmap in Hin as (q & Heq & Hq).
  apply list_elem_of_fmap. exists q. split; [|done].
  rewrite Forall_forall in Hpos. specialize (Hpos q Hq). lia.
Qed.

(** C7: in the table built for a descriptor with valid field numbers,
    the dense array reaches one past the last number the heuristic takes
    (scanning the numbers in ascending order, a number is taken unless it
    is at least 16 and at least twice the largest taken so far, and the
    first number not taken ends the scan); the field numbers with a
    dense-array entry are exactly the numbers taken; and at every index
    the array covers, the dense entry and the entry of the number-keyed
    map are the same pointer, hence the same record, or both nil. *)
Theorem dense_lookup_agrees d t si :
  oneofInitFrame ->
  validNumbers d ->
  messageSetSlots d si ->
  exists mi',
    makeCoderMethods (newMessageInfo d) t si = Ret mi'
    /\ let taken := denseSelected 0 (sortInts (map Number (Fields d))) in
       Z.of_nat (length (denseCoderFields mi')) = default 0 (last taken) + 1
       /\ (forall n, n ∈ map Number (Fields d) ->
             (is_Some (denseLookup mi' n) <-> n ∈ taken))
       /\ (forall n, 0 <= n < Z.of_nat (length (denseCoderFields mi')) ->
             denseLookup mi' n = coderFields mi' !! n)
       /\ (forall n p, denseLookup mi' n = Some p ->
             coderFields mi' !! n = Some p /\ fieldKey mi' p = n).
Proof.
  intros Hframe Hvalid Hslots.
  destruct (makeCoderMethods_built Hframe d t si Hvalid Hslots)
    as (mi' & sel & rest & Hrun & Hkey' & _ & Hcf & _ & _
        & Hsplit & Hsel & Hdense & HmaxD & Hselb & Hrestb).
  destruct Hvalid as [Hnd Hrange].
  destruct (collectCoderFields_spec Hframe d si Hnd) as (_ & Hfld & Hmiss).
  pose proof (collected_keys Hframe d si Hnd) as Hkeys.
  cbv zeta in *.
  set (mi := collectCoderFields (newMessageInfo d) si) in *.
  set (ord1 := sortSlice (lessByNumber mi) (seq 0 (length (Fields d)))) in *.
  assert (Hk1 : map (fieldKey mi) ord1 = sortInts (map Number (Fields d))).
  { unfold ord1. by rewrite lessByNumber_keys, Hkeys. }
  rewrite Hk1 in *.
  set (taken := denseSelected 0 (sortInts (map Number (Fields d)))) in *.
  set (maxDense := default 0 (last taken)) in *.
  assert (Hperm : ord1 ≡ₚ seq 0 (length (Fields d)))
    by apply sortSlice_Permutation.
  (* every pointer of the sorted list is the index of a field *)
  assert (Hptr : forall p, p ∈ ord1 ->
            exists fd, Fields d !! p = Some fd
                       /\ fieldKey mi p = Number fd
                       /\ coderFields mi !! Number fd = Some p).
  { intros p Hp. rewrite Hperm in Hp. apply elem_of_seq in Hp.
    destruct (lookup_lt_is_Some_2 (Fields d) p) as [fd Hfd]; [lia|].
    exists fd. split; [done|]. by apply Hfld. }
  assert (Hnum : forall n, n ∈ map Number (Fields d) ->
            exists p, p ∈ ord1 /\ fieldKey mi p = n).
  { intros n Hn. apply list_elem_of_fmap in Hn as (fd & -> & Hfd).
    apply list_elem_of_lookup in Hfd as [i Hi].
    exists i. split; [|by apply Hfld].
    rewrite Hperm. apply elem_of_seq.
    apply lookup_lt_Some in Hi. lia. }
  assert (Hsel1 : forall p, p ∈ sel -> 1 <= fieldKey mi p <= maxDense).
  { intros p Hp. rewrite Forall_forall in Hselb. split; [|by apply Hselb].
    destruct (Hptr p) as (fd & Hfd & -> & _).
    { rewrite Hsplit. apply elem_of_app. by left. }
    rewrite Forall_forall in Hrange. apply Hrange.
    apply list_elem_of_fmap. exists fd. split; [done|].
    by apply list_elem_of_lookup_2 in Hfd. }
  assert (Hnd1 : NoDup (map (fun q => Z.to_nat (fieldKey mi q)) sel)).
  { apply NoDup_to_nat_keys.
    - rewrite Hsel. subst taken.
      assert (Hs : NoDup (sortInts (map Number (Fields d))))
        by (by rewrite sortInts_Permutation).
      rewrite <- Hk1, Hsplit, map_app, Hsel in Hs.
      by apply NoDup_app in Hs as [Hs _].
    - apply Forall_forall. intros p Hp. specialize (Hsel1 p Hp). lia. }
  assert (Hlen : length (denseCoderFields mi') = Z.to_nat (maxDense + 1)).
  { by rewrite Hdense, denseFold_length, length_replicate. }
  assert (HA : forall p, p ∈ sel ->
            denseCoderFields mi' !! Z.to_nat (fieldKey mi p) = Some (Some p)).
  { intros p Hp. rewrite Hdense. apply denseFold_lookup_elem; [done..|].
    rewrite length_replicate. specialize (Hsel1 p Hp). lia. }
  assert (HB : forall n, 0 <= n -> n ∉ taken ->
            mjoin (denseCoderFields mi' !! Z.to_nat n) = None).
  { intros n Hn Hnt. rewrite Hdense, denseFold_lookup_other.
    - destruct (replicate _ _ !! Z.to_nat n) as [o|] eqn:E; [|done].
      apply lookup_replicate in E as [-> _]. done.
    - apply Forall_forall. intros p Hp Heq. apply Hnt.
      rewrite <- Hsel. apply list_elem_of_fmap. exists p. split; [|done].
      specialize (Hsel1 p Hp). lia. }
  assert (HC : forall n, n ∈ taken ->
            exists p, p ∈ sel /\ fieldKey mi p = n).
  { intros n Hn. rewrite <- Hsel in Hn.
    apply list_elem_of_fmap in Hn as (p & -> & Hp). by exists p. }
  assert (H3 : forall n,
            0 <= n < Z.of_nat (length (denseCoderFields mi')) ->
            denseLookup mi' n = coderFields mi' !! n).
  { intros n Hn. unfold denseLookup.
    destruct (Z.ltb_spec n 0); [lia|]. rewrite Hcf.
    destruct (decide (n ∈ taken)) as [Hin|Hnin].
    - destruct (HC n Hin) as (p & Hp & <-).
      rewrite (HA p Hp). simpl.
      destruct (Hptr p) as (fd & _ & -> & Hmap); [|done].
      rewrite Hsplit. apply elem_of_app. by left.
    - rewrite (HB n) by (done || lia).
      destruct (decide (n ∈ map Number (Fields d))) as [Hf|Hf].
      + exfalso. destruct (Hnum n Hf) as (p & Hp & Hkp).
        rewrite Hsplit in Hp. apply elem_of_app in Hp as [Hp|Hp].
        * apply Hnin. rewrite <- Hsel. apply list_elem_of_fmap. by exists p.
        * rewrite Forall_forall in Hrestb. specialize (Hrestb p Hp). lia.
      + symmetry. by apply Hmiss. }
  exists mi'. split; [done|]. split; [|split; [|split]].
  - rewrite Hlen. lia.
  - intros n Hn. split.
    + intros [p Hp]. unfold denseLookup in Hp.
      destruct (Z.ltb_spec n 0); [done|].
      destruct (decide (n ∈ taken)) as [|Hnin]; [done|].
      by rewrite HB in Hp.
    + intros Hin. destruct (HC n Hin) as (p & Hp & <-).
      exists p. unfold denseLookup.
      specialize (Hsel1 p Hp).
      destruct (Z.ltb_spec (fieldKey mi p) 0); [lia|].
      by rewrite (HA p Hp).
  - exact H3.
  - intros n p Hp.
    assert (Hn : 0 <= n < Z.of_nat (length (denseCoderFields mi'))).
    { unfold denseLookup in Hp.
      destruct (Z.ltb_spec n 0); [done|]. split; [done|].
      destruct (denseCoderFields mi' !! Z.to_nat n) eqn:E; [|done].
      apply lookup_lt_Some in E. lia. }
    rewrite (H3 n Hn) in Hp. split; [done|].
    rewrite Hkey'. rewrite Hcf in Hp.
    destruct (decide (n ∈ map Number (Fields d))) as [Hf|Hf].
    + destruct (Hnum n Hf) as (q & Hq & Hkq).
      destruct (Hptr q Hq) as (fd & _ & Hkfd & Hmap).
      rewrite Hkq in Hkfd. rewrite <- Hkfd in Hmap. congruence.
    + by rewrite Hmiss in Hp.
Qed.
End BuildTable.

(** ** The table builder: the canonical field order *)

Section BuildOrder.
Context {storage : Storage} {registry : Registry}.

Lemma ByNumber_elem (fields : list FieldDescriptor) fd :
  NoDup (map Number fields) -> fd ∈ fields ->
  ByNumber fields (Number fd) = Some fd.
Proof.
  unfold ByNumber.
  induction fields as [|fd' fields IH]; intros Hnd Hin.
  { by apply elem_of_nil in Hin. }
  cbn [map] in Hnd. apply NoDup_cons in Hnd as [Hfd' Hnd].
  cbn [find].
  apply elem_of_cons in Hin as [->|Hin]; [by rewrite Z.eqb_refl|].
  destruct (Z.eqb_spec (Number fd') (Number fd)) as [Heq|]; [|by apply IH].
  exfalso. apply Hfd'. rewrite Heq.
  apply list_elem_of_fmap. by exists fd.
Qed.

Lemma lessByDescriptor_keys fields mi (ps : list cfptr) :
  map (fieldKey mi) (sortSlice (lessByDescriptor fields mi) ps)
  = sortSlice (lessNumbers fields) (map (fieldKey mi) ps).
Proof. exact (sortSlice_map (fieldKey mi) (lessNumbers fields) ps). Qed.

(** On the numbers of the descriptor the comparator of the second sort
    puts a field outside every oneof before a oneof member and otherwise
    compares the numbers. *)
Lemma lessNumbers_char d x y :
  NoDup (map Number (Fields d)) ->
  x ∈ map Number (Fields d) -> y ∈ map Number (Fields d) ->
  lessNumbers (Fields d) x y
  = match memberNumber (Fields d) x, memberNumber (Fields d) y with
    | false, true => true
    | true, false => false
    | _, _ => x <? y
    end.
Proof.
  intros Hnd Hx Hy.
  apply list_elem_of_fmap in Hx as (fx & -> & Hfx).
  apply list_elem_of_fmap in Hy as (fy & -> & Hfy).
  unfold lessNumbers, memberNumber.
  rewrite !ByNumber_elem by done.
  unfold Less, isOneofMember.
  by destruct (ContainingOneof fx), (ContainingOneof fy).
Qed.

Lemma filter_split_perm {A} (P : A -> bool) (l : list A) :
  List.filter (fun x => negb (P x)) l ++ List.filter P l ≡ₚ l.
Proof.
  induction l as [|x l IH]; [done|]. cbn [List.filter].
  destruct (P x); cbn [negb].
  - rewrite <- Permutation_middle. by constructor.
  - cbn [app]. by constructor.
Qed.

Lemma filter_elem {A} (P : A -> bool) (l : list A) x :
  x ∈ List.filter P l <-> x ∈ l /\ P x = true.
Proof. rewrite !list_elem_of_In. apply filter_In. Qed.

Lemma filter_StronglySorted {A} (R : A -> A -> Prop) (P : A -> bool) l :
  StronglySorted R l -> StronglySorted R (List.filter P l).
Proof.
  induction 1 as [|x l Hs IH Hx]; [constructor|]. cbn [List.filter].
  destruct (P x); [|done]. constructor; [done|].
  apply Forall_forall. intros y Hy. apply filter_elem in Hy as [Hy _].
  rewrite Forall_forall in Hx. by apply Hx.
Qed.

Lemma StronglySorted_weaken {A} (R R' : A -> A -> Prop) l :
  (forall x y, x ∈ l -> y ∈ l -> R x y -> R' x y) ->
  StronglySorted R l -> StronglySorted R' l.
Proof.
  intros Himp Hs. induction Hs as [|x l Hs IH Hx]; [constructor|].
  constructor.
  - apply IH. intros y z Hy Hz. apply Himp; by right.
  - apply Forall_forall. intros y Hy. apply Himp; [left|by right|].
    rewrite Forall_forall in Hx. by apply Hx.
Qed.

Lemma filter_map_agree {A B} (f : A -> B) (P : B -> bool) (Q : A -> bool) l :
  (forall x, x ∈ l -> P (f x) = Q x) ->
  List.filter P (map f l) = map f (List.filter Q l).
Proof.
  induction l as [|x l IH]; intros Hag; [done|].
  cbn [map List.filter]. rewrite (Hag x) by left.
  rewrite IH by (intros y Hy; apply Hag; by right).
  by destruct (Q x).
Qed.

(** Sorting the ascending numbers with the comparator of the second sort
    moves the oneof members behind the other fields and keeps the order
    within both groups. *)
Lemma lessNumbers_partition d :
  NoDup (map Number (Fields d)) ->
  let asc := sortInts (map Number (Fields d)) in
  sortSlice (lessNumbers (Fields d)) asc
  = List.filter (fun n => negb (memberNumber (Fields d) n)) asc
    ++ List.filter (memberNumber (Fields d)) asc.
Proof.
  intros Hnd asc.
  assert (Hasc : forall x, x ∈ asc -> x ∈ map Number (Fields d)).
  { intros x Hx. unfold asc in Hx. by rewrite sortInts_Permutation in Hx. }
  assert (Hs : StronglySorted Z.lt asc) by (by apply sortInts_sorted).
  assert (Hnd' : NoDup asc) by (unfold asc; by rewrite sortInts_Permutation).
  symmetry. apply sortSlice_unique; [|done|apply filter_split_perm|].
  - split; unfold lessRel; intros x y.
    + intros Hx Hy. rewrite !lessNumbers_char by auto.
      destruct (memberNumber (Fields d) x), (memberNumber (Fields d) y);
        rewrite ?Z.ltb_lt; try done; lia.
    + intros z Hx Hy Hz. rewrite !lessNumbers_char by auto.
      destruct (memberNumber (Fields d) x), (memberNumber (Fields d) y), (memberNumber (Fields d) z);
        rewrite ?Z.ltb_lt; try done; lia.
    + intros Hx Hy Hne. rewrite !lessNumbers_char by auto.
      destruct (memberNumber (Fields d) x), (memberNumber (Fields d) y);
        rewrite ?Z.ltb_lt; auto; lia.
  - apply StronglySorted_app_2.
    + intros x y Hx Hy.
      apply filter_elem in Hx as [Hx Hmx], Hy as [Hy Hmy].
      unfold lessRel. rewrite lessNumbers_char by auto.
      apply negb_true_iff in Hmx. by rewrite Hmx, Hmy.
    + apply (StronglySorted_weaken Z.lt);
        [|by apply filter_StronglySorted].
      intros x y Hx Hy Hlt.
      apply filter_elem in Hx as [Hx Hmx], Hy as [Hy Hmy].
      unfold lessRel. rewrite lessNumbers_char by auto.
      apply negb_true_iff in Hmx, Hmy. rewrite Hmx, Hmy.
      by apply Z.ltb_lt.
    + apply (StronglySorted_weaken Z.lt);
        [|by apply filter_StronglySorted].
      intros x y Hx Hy Hlt.
      apply filter_elem in Hx as [Hx Hmx], Hy as [Hy Hmy].
      unfold lessRel. rewrite lessNumbers_char by auto.
      rewrite Hmx, Hmy. by apply Z.ltb_lt.
Qed.

Lemma ascendingFields_numbers d :
  map Number (ascendingFields d) = sortInts (map Number (Fields d)).
Proof. exact (sortSlice_map Number Z.ltb (Fields d)). Qed.

Lemma canonicalOrder_numbers d :
  NoDup (map Number (Fields d)) ->
  map Number (canonicalOrder d)
  = let asc := sortInts (map Number (Fields d)) in
    match Oneofs d with
    | [] => asc
    | _ :: _ =>
        List.filter (fun n => negb (memberNumber (Fields d) n)) asc
        ++ List.filter (memberNumber (Fields d)) asc
    end.
Proof.
  intros Hnd. cbv zeta. unfold canonicalOrder.
  destruct (Oneofs d); [apply ascendingFields_numbers|].
  assert (Hmem : forall fd, fd ∈ ascendingFields d ->
            memberNumber (Fields d) (Number fd) = isOneofMember fd).
  { intros fd Hfd. unfold ascendingFields in Hfd.
    rewrite sortSlice_Permutation in Hfd.
    unfold memberNumber. by rewrite ByNumber_elem. }
  rewrite map_app, <- ascendingFields_numbers.
  f_equal; symmetry; apply filter_map_agree.
  - intros fd Hfd. by rewrite Hmem.
  - exact Hmem.
Qed.

(** C6: the table built for a descriptor with valid field numbers lists
    its fields in the canonical order: ascending by field number when the
    type has no oneof group; with at least one oneof group, the fields
    outside every oneof in ascending order followed by the oneof members
    in ascending order. *)
Theorem canonical_field_order d t si :
  oneofInitFrame ->
  validNumbers d ->
  messageSetSlots d si ->
  exists mi',
    makeCoderMethods (newMessageInfo d) t si = Ret mi'
    /\ orderedNumbers mi' = map Number (canonicalOrder d)
    /\ ascendingFields d ≡ₚ Fields d
    /\ StronglySorted Z.lt (map Number (ascendingFields d))
    /\ (Oneofs d = [] -> StronglySorted Z.lt (orderedNumbers mi')).
Proof.
  intros Hframe Hvalid Hslots.
  destruct (makeCoderMethods_built Hframe d t si Hvalid Hslots)
    as (mi' & sel & rest & Hrun & Hkey' & _ & _ & _ & Hord & _).
  destruct Hvalid as [Hnd Hrange].
  pose proof (collected_keys Hframe d si Hnd) as Hkeys.
  destruct (collectCoderFields_frame Hframe (newMessageInfo d) si)
    as (HD & _).
  cbv zeta in *.
  set (mi := collectCoderFields (newMessageInfo d) si) in *.
  change (Desc (newMessageInfo d)) with d in HD.
  assert (Hasc : StronglySorted Z.lt (map Number (ascendingFields d))).
  { rewrite ascendingFields_numbers. by apply sortInts_sorted. }
  assert (Hnums : orderedNumbers mi' = map Number (canonicalOrder d)).
  { unfold orderedNumbers. fold (fieldKey mi').
    rewrite (map_ext _ _ Hkey'), Hord, canonicalOrder_numbers by done.
    cbv zeta. destruct (Oneofs d) as [|od ods]; cbn [length Nat.ltb Nat.leb].
    - by rewrite lessByNumber_keys, Hkeys.
    - rewrite lessByDescriptor_keys, lessByNumber_keys, Hkeys.
      by apply lessNumbers_partition. }
  exists mi'. repeat split; try done.
  - apply sortSlice_Permutation.
  - intros Ho. rewrite Hnums. unfold canonicalOrder. by rewrite Ho.
Qed.
End BuildOrder.

(** ** The statements on the example runtime *)

Section Evaluation.
#[local] Existing Instance exStorage.
#[local] Existing Instance exCodecs.
#[local] Existing Instance exRegistry.

Lemma exBytesCoder_agrees n o v opts :
  fieldCoderAgrees (exField n o exBytesCoder) v opts.
Proof.
  intros _. simpl. intros b _. rewrite length_app.
  unfold sizeOfField. simpl. lia.
Qed.

Lemma exLengthCoder_agrees n o v :
  fieldCoderAgrees (exField n o exLengthCoder) v exOpts.
Proof.
  intros _. simpl. intros b _. rewrite length_app.
  unfold sizeOfField. simpl. unfold exLength. simpl. lia.
Qed.

Lemma exExtension_agrees x opts : extensionCoderAgrees x opts.
Proof.
  intros b b'. unfold marshalExtension, sizeOfExtension. simpl.
  intros [= <-]. rewrite length_app. simpl. lia.
Qed.

Lemma exExtensions_wf : wfExtMap exExtensions.
Proof.
  split.
  - compute_done.
  - repeat constructor; unfold inInt32; simpl; lia.
Qed.

Lemma exExtensions_perm : exExtensions' ≡ₚ exExtensions.
Proof.
  change exExtensions'
    with [(5, exExtension 5 [x05]); (9, exExtension 9 [x09]);
          (3, exExtension 3 [x03])].
  change exExtensions
    with ([(9, exExtension 9 [x09]); (3, exExtension 3 [x03])]
          ++ [(5, exExtension 5 [x05])]).
  apply Permutation_cons_append.
Qed.

Lemma exRegistry_frame : oneofInitFrame.
Proof.
  intros mi od si. simpl. repeat split.
  intros p. unfold deref. simpl.
  by destruct (pcf_marshal (funcs (cells (store mi) p))).
Qed.

(** The encoding of the example instance: the extensions 3, 5, 9, the
    fields 1 and 2, the unknown bytes. *)
Example exMessage_bytes :
  marshalAppendPointer exTable [] (Some exMessage) exOpts
  = Ret ([x1a; x03; x2a; x05; x4a; x09; x0a; x68; x69; x12; x21; xf8; x01],
         None).
Proof. reflexivity. Qed.

(** The stored size of field 2 of the example instance is stale: with
    cache reuse requested its coder reports 35 bytes and appends 2. *)
Example exLengthCoder_stale :
  ~ fieldCoderAgrees (exField 2 1 exLengthCoder) (fieldAt exMessage 1)
      exCachedOpts.
Proof.
  intros Hag. specialize (Hag eq_refl [] eq_refl). vm_compute in Hag.
  discriminate.
Qed.

Lemma size_matches_marshal_witness :
  exists b',
    marshalAppendPointer exLengthTable [] (Some exMessage) exOpts
    = Ret (b', None)
    /\ Z.of_nat (length b') - Z.of_nat (length (@nil byte))
       = fst (sizePointer exLengthTable (Some exMessage) exOpts).
Proof.
  eexists. split; [reflexivity|].
  refine (proj1 (proj2 (proj2 (proj2
            (size_matches_marshal (codecs := exCodecs) exLengthTable exOpts)))
            exMessage [] _ eq_refl _ _ _ _ _) _).
  - split.
    + intros _. apply Forall_forall. intros kx _. apply exExtension_agrees.
    + repeat constructor;
        [apply exBytesCoder_agrees | apply exLengthCoder_agrees].
  - intros [=].
  - apply exExtensions_wf.
  - unfold inInt. simpl. lia.
  - unfold inInt. simpl. lia.
  - reflexivity.
Defined.

(** With cache reuse requested, the never-sized example instance sizes to
    0 while marshal appends 13 bytes. *)
Lemma size_marshal_stale_cache :
  ~ (forall b',
       marshalAppendPointer exTable [] (Some exMessage) exCachedOpts
       = Ret (b', None) ->
       Z.of_nat (length b')
       = Z.of_nat (length (@nil byte))
         + fst (sizePointer exTable (Some exMessage) exCachedOpts)).
Proof.
  intros Hclaim. specialize (Hclaim _ eq_refl). vm_compute in Hclaim.
  discriminate.
Qed.

Lemma appendExtensions_deterministic_witness :
  appendExtensions exTable [] (Some exExtensions') exOpts
  = appendExtensions exTable [] (Some exExtensions) exOpts.
Proof.
  apply (appendExtensions_deterministic exTable [] exExtensions
           exExtensions' exOpts exExtensions_wf exExtensions_perm).
Defined.

Lemma marshal_order_witness :
  marshalAppendPointer exTable [] (Some exMessage) exOpts
  = runSteps (marshalSteps exTable exMessage exOpts) [].
Proof.
  apply (marshal_order exTable [] exMessage exOpts eq_refl exExtensions_wf).
Defined.

Lemma marshal_first_error_aborts_witness :
  marshalAppendPointer exFailingTable [] (Some exMessage) exOpts
  = Ret ([x1a; x03; x2a; x05; x4a; x09; x0a; x68; x69; x12],
         Some "string field contains invalid UTF-8"%string).
Proof.
  apply (marshal_first_error_aborts exFailingTable [] exMessage exOpts
           (take 4 (marshalSteps exFailingTable exMessage exOpts))
           (drop 5 (marshalSteps exFailingTable exMessage exOpts))
           (fun b => Ret (b ++ [x12],
                          Some "string field contains invalid UTF-8"%string))
           [x1a; x03; x2a; x05; x4a; x09; x0a; x68; x69]).
  - reflexivity.
  - apply exExtensions_wf.
  - reflexivity.
  - reflexivity.
  - reflexivity.
Defined.

Lemma messageSet_delegation_witness :
  marshalAppendPointer (codecs := exLegacyCodecs) exSetTable []
    (Some exMessage) exOpts
  = Ret ([x0b; xf8; x01; x0c], None).
Proof.
  apply (messageSet_delegation (codecs := exLegacyCodecs) exSetTable []
           exMessage exOpts eq_refl eq_refl).
Defined.

(** A table flagged as a message set, in the build without legacy support:
    the size walk counts the two unknown bytes, the marshal walk does not
    append them. *)
Example messageSet_without_legacy :
  marshalAppendPointer exSetTable [] (Some exMessage) exOpts
  = Ret ([x1a; x03; x2a; x05; x4a; x09], None)
  /\ fst (sizePointer exSetTable (Some exMessage) exOpts) = 8.
Proof. split; reflexivity. Qed.

(** Without legacy support the table flagged as a message set is sized
    and marshaled by the canonical walk, not by the message-set codec. *)
Lemma messageSet_no_delegation :
  fst (sizePointerSlow exSetTable exMessage exOpts)
    <> sizeMessageSet exSetTable (Some exMessage) exOpts
  /\ marshalAppendPointer exSetTable [] (Some exMessage) exOpts
     <> Ret (marshalMessageSet exSetTable [] (Some exMessage) exOpts).
Proof. split; vm_compute; discriminate. Qed.

Lemma size_stores_and_reuses_witness :
  sizePointer exTable
    (Some (snd (sizePointerSlow exTable exMessage exOpts))) exCachedOpts
  = (13, Some (snd (sizePointerSlow exTable exMessage exOpts))).
Proof.
  pose proof (size_stores_and_reuses (codecs := exCodecs) exTable exMessage
                exOpts exCachedOpts eq_refl eq_refl) as Hw.
  cbv zeta in Hw. destruct Hw as (_ & _ & _ & _ & Hsp & _). exact Hsp.
Defined.

(** A full computation on the two-gibibyte example returns 2^31 + 8 and
    stores that total wrapped to 32 bits; the call with cache reuse that
    follows returns the wrapped, negative value. *)
Lemma size_twice_differs :
  let r := sizePointer exHugeTable (Some exMessage) exOpts in
  fst r = 2 ^ 31 + 8
  /\ option_map sizecache (snd r) <> Some (fst r)
  /\ fst (sizePointer exHugeTable (snd r) exCachedOpts) <> fst r.
Proof. cbv zeta. repeat split; vm_compute; discriminate. Qed.

Lemma sizePointer_cached_unchecked_witness :
  sizePointer exTable (Some exMessage) exCachedOpts = (0, Some exMessage).
Proof.
  apply (sizePointer_cached_unchecked (codecs := exCodecs) exTable
           exMessage exCachedOpts eq_refl eq_refl).
Defined.

Lemma exOneofDescriptor_valid : validNumbers exOneofDescriptor.
Proof.
  split.
  - compute_done.
  - repeat constructor; simpl; lia.
Qed.

Lemma exSparseDescriptor_valid : validNumbers exSparseDescriptor.
Proof.
  split.
  - compute_done.
  - repeat constructor; simpl; lia.
Qed.

Lemma canonical_field_order_witness :
  exists mi',
    makeCoderMethods (newMessageInfo exOneofDescriptor) None exStructInfo
    = Ret mi'
    /\ orderedNumbers mi' = [1; 3; 2; 4].
Proof.
  destruct (canonical_field_order exOneofDescriptor None exStructInfo
              exRegistry_frame exOneofDescriptor_valid)
    as (mi' & Hrun & Hnums & _).
  - intros [=].
  - exists mi'. split; [exact Hrun|]. rewrite Hnums. reflexivity.
Defined.

Lemma dense_lookup_agrees_witness :
  exists mi',
    makeCoderMethods (newMessageInfo exSparseDescriptor) None exStructInfo
    = Ret mi'
    /\ Z.of_nat (length (denseCoderFields mi')) = 21
    /\ denseLookup mi' 12 = coderFields mi' !! 12.
Proof.
  destruct (dense_lookup_agrees exSparseDescriptor None exStructInfo
              exRegistry_frame exSparseDescriptor_valid)
    as (mi' & Hrun & Hlen & _ & Hsame & _).
  - intros [=].
  - exists mi'. split; [exact Hrun|]. split; [exact Hlen|].
    apply Hsame. rewrite Hlen. vm_compute. by split.
Defined.

Lemma messageSet_build_fails_witness :
  makeCoderMethods (newMessageInfo exSetDescriptor) None
    exStructInfoNoUnknown
  = Panic "example.MessageSet: MessageSet with no unknown field".
Proof.
  apply (messageSet_build_fails (newMessageInfo exSetDescriptor) None
           exStructInfoNoUnknown exRegistry_frame eq_refl).
  by right.
Defined.
End Evaluation.

(** ** More on the size walk *)

Section SizeFacts.
Context {storage : Storage} {codecs : Codecs}.

Lemma sizeExtensionsRange_int (e : ExtMap) opts : forall n,
  int n = n -> int (sizeExtensionsRange e opts n) = sizeExtensionsRange e opts n.
Proof.
  induction e as [|[k x] e IH]; intros n Hn; cbn [sizeExtensionsRange]; [done|].
  cbv zeta.
  destruct (vcf_size (xi_funcs (getExtensionFieldInfo (xType x))));
    [apply IH, int_int | by apply IH].
Qed.

Lemma sizeExtensions_sum mi (e : ExtMap) opts :
  sizeExtensions mi (Some e) opts
  = int (sumZ (map (fun kx => sizeOfExtension (snd kx) opts) e)).
Proof.
  unfold sizeExtensions.
  rewrite <- sizeExtensionsRange_int by done.
  rewrite sizeExtensionsRange_sum. f_equal.
Qed.

(** X1: the size of an extension set does not depend on the order in which
    the map lists its entries. *)
Theorem sizeExtensions_listing mi (e e' : ExtMap) opts :
  e' ≡ₚ e ->
  sizeExtensions mi (Some e') opts = sizeExtensions mi (Some e) opts.
Proof.
  intros Hp. rewrite !sizeExtensions_sum. f_equal.
  apply sumZ_perm. by apply Permutation_map.
Qed.

Lemma sizeFields_sum mi m opts fs : forall size,
  int (sizeFields mi m opts fs size)
  = int (size + sumZ (map (fieldContribution mi m opts) fs)).
Proof.
  induction fs as [|p fs IH]; intros size.
  { simpl. f_equal. unfold sumZ. simpl. lia. }
  assert (Hsum : sumZ (map (fieldContribution mi m opts) (p :: fs))
                 = fieldContribution mi m opts p
                   + sumZ (map (fieldContribution mi m opts) fs))
    by reflexivity.
  rewrite Hsum. unfold fieldContribution at 1.
  cbn [sizeFields]. cbv zeta.
  destruct (pcf_size (funcs (deref mi p))) as [fsize|].
  - destruct (isPointer (deref mi p)
              && elemIsNil (fieldAt m (offset_ (deref mi p)))).
    + rewrite IH. f_equal.
    + rewrite IH, int_add_l. f_equal. lia.
  - rewrite IH. f_equal.
Qed.

(** X2: on the canonical path the size is the sum, wrapped once to an
    [int], of the sizes of the extension entries (when the type has the
    slot), of what the size functions return for the fields that have one
    and are not nil pointer-like fields, and of the number of unknown bytes
    (when the type has the slot). *)
Theorem sizePointerSlow_sum mi m opts :
  ProtoLegacy && isMessageSet mi = false ->
  fst (sizePointerSlow mi m opts)
  = int ((if IsValid (extensionOffset mi)
          then sumZ (map (fun kx => sizeOfExtension (snd kx) opts)
                       (extensionFields m))
          else 0)
         + sumZ (map (fieldContribution mi m opts) (orderedCoderFields mi))
         + (if IsValid (unknownOffset mi)
            then Z.of_nat (length (unknownFields m)) else 0)).
Proof.
  intros Hpath. rewrite sizePointerSlow_canonical by done. cbv zeta.
  set (s1 := if IsValid (extensionOffset mi) then _ else 0).
  set (ext := if IsValid (extensionOffset mi) then sumZ _ else 0).
  assert (H1 : int s1 = int ext /\ int s1 = s1).
  { subst s1 ext. destruct (IsValid (extensionOffset mi)); [|done].
    rewrite int_int. split; [|done].
    rewrite Z.add_0_l, sizeExtensions_sum. apply int_int. }
  destruct H1 as [H1 H1'].
  assert (H2 : int (sizeFields mi m opts (orderedCoderFields mi) s1)
               = int (ext + sumZ (map (fieldContribution mi m opts)
                                    (orderedCoderFields mi)))).
  { rewrite sizeFields_sum, <- int_add_l, H1, int_add_l. done. }
  destruct (IsValid (unknownOffset mi)).
  - rewrite <- int_add_l, H2, int_add_l. done.
  - rewrite <- (sizeFields_int mi m opts _ s1 H1'), H2. f_equal. lia.
Qed.
End SizeFacts.

(** ** More on the marshal walk *)

Section MarshalFacts.
Context {storage : Storage} {codecs : Codecs}.

Lemma extLookup_Some_elem (e : ExtMap) k x :
  extLookup e k = Some x -> exists k', (k', x) ∈ e.
Proof.
  induction e as [|[k' x'] e IH]; simpl; [done|].
  destruct (k' =? k).
  - intros [= ->]. exists k'. left.
  - intros Hl. destruct (IH Hl) as [k'' Hin]. exists k''. by right.
Qed.

Lemma marshalExtension_prefix b x opts r :
  extensionCoderAppends x ->
  marshalExtension b x opts = Ret r -> b `prefix_of` fst r.
Proof.
  unfold extensionCoderAppends, marshalExtension.
  destruct (vcf_marshal (xi_funcs (getExtensionFieldInfo (xType x))));
    [|done].
  intros Hx [= <-]. apply Hx.
Qed.

Lemma appendExtensionsRange_prefix (e : ExtMap) opts : forall b err r,
  Forall (fun kx => extensionCoderAppends (snd kx)) e ->
  appendExtensionsRange e opts b err = Ret r -> b `prefix_of` fst r.
Proof.
  induction e as [|[k x] e IH]; intros b err r Hall; simpl.
  { by intros [= <-]. }
  apply Forall_cons in Hall as [Hx Hall].
  destruct (marshalExtension b x opts) as [r1|msg] eqn:E; simpl; [|done].
  intros Hrest. etrans; [by eapply marshalExtension_prefix|].
  by eapply IH.
Qed.

Lemma appendExtensionsKeys_prefix (e : ExtMap) opts keys : forall b r,
  Forall (fun kx => extensionCoderAppends (snd kx)) e ->
  appendExtensionsKeys e opts keys b = Ret r -> b `prefix_of` fst r.
Proof.
  induction keys as [|k keys IH]; intros b r Hall; simpl.
  { by intros [= <-]. }
  destruct (extLookup e (int32 k)) as [x|] eqn:El; [|done].
  destruct (extLookup_Some_elem e _ x El) as [k' Hin].
  rewrite Forall_forall in Hall. pose proof (Hall _ Hin) as Hx.
  simpl in Hx.
  destruct (marshalExtension b x opts) as [r1|msg] eqn:E; simpl; [|done].
  pose proof (marshalExtension_prefix b x opts r1 Hx E) as Hp1.
  destruct (snd r1).
  - by intros [= <-].
  - intros Hrest. etrans; [exact Hp1|].
    eapply IH; [|exact Hrest]. by apply Forall_forall.
Qed.

Lemma appendExtensions_prefix mi b (e : ExtMap) opts r :
  Forall (fun kx => extensionCoderAppends (snd kx)) e ->
  appendExtensions mi b (Some e) opts = Ret r -> b `prefix_of` fst r.
Proof.
  intros Hall. unfold appendExtensions.
  destruct (length e) as [|[|n]].
  - by intros [= <-].
  - by apply appendExtensionsRange_prefix.
  - by apply appendExtensionsKeys_prefix.
Qed.

Lemma marshalFields_prefix mi m opts fs : forall b,
  Forall (fun p => fieldCoderAppends (deref mi p)) fs ->
  b `prefix_of` fst (marshalFields mi m opts fs b).
Proof.
  induction fs as [|p fs IH]; intros b Hall; simpl; [done|].
  apply Forall_cons in Hall as [Hp Hall]. unfold fieldCoderAppends in Hp.
  destruct (pcf_marshal (funcs (deref mi p))) as [marshal|]; [|by apply IH].
  destruct (isPointer (deref mi p) && elemIsNil _); [by apply IH|].
  specialize (Hp b (fieldAt m (offset_ (deref mi p))) opts).
  destruct (marshal b _ _ opts) as [b1 [err|]]; simpl in *; [done|].
  etrans; [exact Hp|]. by apply IH.
Qed.

Lemma marshalAppendPointer_prefix mi b p opts r :
  Forall (fun q => fieldCoderAppends (deref mi q)) (orderedCoderFields mi) ->
  (forall m, p = Some m ->
     Forall (fun kx => extensionCoderAppends (snd kx)) (extensionFields m)) ->
  (ProtoLegacy && isMessageSet mi = true -> messageSetAppends mi) ->
  marshalAppendPointer mi b p opts = Ret r -> b `prefix_of` fst r.
Proof.
  intros Hf Hx Hms. destruct p as [m|]; simpl; [|by intros [= <-]].
  specialize (Hx m eq_refl).
  destruct (ProtoLegacy && isMessageSet mi).
  { intros [= <-]. by apply Hms. }
  destruct (if IsValid (extensionOffset mi) then _ else _)
    as [r1|msg] eqn:E; simpl; [|done].
  assert (Hp1 : b `prefix_of` fst r1).
  { destruct (IsValid (extensionOffset mi)).
    - exact (appendExtensions_prefix mi b _ opts r1 Hx E).
    - by injection E as <-. }
  destruct (snd r1); [by intros [= <-]|].
  pose proof (marshalFields_prefix mi m opts (orderedCoderFields mi)
                (fst r1) Hf) as Hp2.
  destruct (marshalFields mi m opts (orderedCoderFields mi) (fst r1))
    as [b2 [err|]]; simpl in *.
  - intros [= <-]. simpl. etrans; [exact Hp1|exact Hp2].
  - destruct (IsValid (unknownOffset mi) && negb (isMessageSet mi));
      intros [= <-]; simpl.
    + etrans; [exact Hp1|]. etrans; [exact Hp2|]. by apply prefix_app_r.
    + etrans; [exact Hp1|exact Hp2].
Qed.

(** X5: marshal only appends.  When the encode functions of the fields, of
    the extension entries and of the message-set codec return their buffer
    extended, the buffer [marshal] returns starts with the buffer it was
    given, whether it returns an error or not. *)
Theorem marshal_only_appends mi m input opts out err :
  Forall (fun q => fieldCoderAppends (deref mi q)) (orderedCoderFields mi) ->
  (forall p mm, messagePointer m = Ret p -> p = Some mm ->
     Forall (fun kx => extensionCoderAppends (snd kx)) (extensionFields mm)) ->
  (ProtoLegacy && isMessageSet mi = true -> messageSetAppends mi) ->
  MessageInfo_marshal mi m input opts = Ret (out, err) ->
  Buf input `prefix_of` OutBuf out.
Proof.
  intros Hf Hx Hms. unfold MessageInfo_marshal.
  destruct (messagePointer m) as [p|msg] eqn:Ep; simpl; [|done].
  destruct (marshalAppendPointer mi (Buf input) p opts) as [r|msg] eqn:E;
    simpl; [|done].
  intros [= <- _]. simpl.
  eapply marshalAppendPointer_prefix; [exact Hf| |exact Hms|exact E].
  intros mm ->. by apply (Hx (Some mm)).
Qed.

Lemma runSteps_extensions_ret opts (xs : list ExtensionField) : forall b,
  Forall (fun x => extensionHasMarshal x = true) xs ->
  exists r, runSteps (map (extensionStep opts) xs) b = Ret r.
Proof.
  induction xs as [|x xs IH]; intros b Hall; simpl; [by eexists|].
  apply Forall_cons in Hall as [Hx Hall].
  unfold extensionStep at 1. unfold marshalExtension.
  unfold extensionHasMarshal in Hx.
  destruct (vcf_marshal (xi_funcs (getExtensionFieldInfo (xType x))))
    as [marshal|]; [|done].
  simpl. destruct (snd (marshal b _ _ opts)); [by eexists|by apply IH].
Qed.

(** X6: what makes marshal panic on the canonical path.  With an extension
    slot and a well-formed extension map, marshal returns, with or without
    an error, when every entry's type has an encode function; and it panics
    on a nil function value when the entry with the smallest field number
    has none. *)
Theorem marshal_panics_on_nil_coder mi b m opts :
  ProtoLegacy && isMessageSet mi = false ->
  IsValid (extensionOffset mi) = true ->
  wfExtMap (extensionFields m) ->
  (Forall (fun kx => extensionHasMarshal (snd kx) = true) (extensionFields m) ->
   exists r, marshalAppendPointer mi b (Some m) opts = Ret r)
  /\ (forall x rest,
        sortedEntries (extensionFields m) = x :: rest ->
        extensionHasMarshal x = false ->
        marshalAppendPointer mi b (Some m) opts
        = Panic "invalid memory address or nil pointer dereference").
Proof.
  intros Hpath Hv Hwf. split.
  - intros Hall.
    assert (Hs : Forall (fun x => extensionHasMarshal x = true)
                   (sortedEntries (extensionFields m))).
    { rewrite sortedEntries_perm. by apply Forall_fmap. }
    destruct (runSteps_extensions_ret opts _ b Hs) as [r1 Hr1].
    unfold marshalAppendPointer. rewrite Hpath, Hv.
    rewrite appendExtensions_steps, Hr1 by done. simpl.
    destruct (snd r1); [by eexists|].
    destruct (marshalFields mi m opts (orderedCoderFields mi) (fst r1))
      as [b2 [err|]]; simpl; [by eexists|].
    destruct (IsValid (unknownOffset mi) && negb (isMessageSet mi));
      by eexists.
  - intros x rest Hsorted Hx.
    unfold marshalAppendPointer. rewrite Hpath, Hv.
    rewrite appendExtensions_steps, Hsorted by done. simpl.
    unfold extensionStep, marshalExtension, extensionHasMarshal in *.
    by destruct (vcf_marshal (xi_funcs (getExtensionFieldInfo (xType x)))).
Qed.

(** X7: on the canonical path, two instances that are the same but for
    the order in which their extension maps list the entries have the same
    size and marshal to the same bytes with the same error. *)
Theorem listing_order_is_unobservable mi b m m' opts :
  ProtoLegacy && isMessageSet mi = false ->
  wfExtMap (extensionFields m) ->
  sameButListing m m' ->
  marshalAppendPointer mi b (Some m') opts
    = marshalAppendPointer mi b (Some m) opts
  /\ fst (sizePointer mi (Some m') opts) = fst (sizePointer mi (Some m) opts).
Proof.
  intros Hpath Hwf (Hf & Hc & Hu & He).
  assert (Hwf' : wfExtMap (extensionFields m')) by (by eapply wfExtMap_perm).
  split.
  - rewrite (marshalAppendPointer_steps mi b m' opts Hpath Hwf').
    rewrite (marshalAppendPointer_steps mi b m opts Hpath Hwf).
    f_equal. unfold marshalSteps, sortedEntries, fieldStep, unknownStep.
    by rewrite (sortSlice_keyLess_perm _ _ Hwf He), Hf, Hu.
  - unfold sizePointer. rewrite Hc.
    destruct (UseCachedSize opts && IsValid (sizecacheOffset mi)); [done|].
    cbn [fst]. rewrite !sizePointerSlow_canonical by done. cbv zeta.
    rewrite !sizeExtensions_sum, Hu.
    rewrite (sumZ_perm _ _
               (Permutation_map (fun kx => sizeOfExtension (snd kx) opts) He)).
    assert (Hfs : forall fs size,
              sizeFields mi m' opts fs size = sizeFields mi m opts fs size).
    { induction fs as [|p fs IH]; intros size; simpl; [done|].
      rewrite Hf. destruct (pcf_size (funcs (deref mi p))); [|done].
      by destruct (isPointer (deref mi p) && elemIsNil _). }
    by rewrite Hfs.
Qed.
End MarshalFacts.

(** ** More on the table builder *)

Section BuildFacts.
Context {storage : Storage} {registry : Registry}.

Lemma checkMessageSet_inv mi mi' :
  checkMessageSet mi = Ret mi' ->
  store mi' = store mi
  /\ Desc mi' = Desc mi
  /\ coderFields mi' = coderFields mi
  /\ orderedCoderFields mi' = orderedCoderFields mi
  /\ unknownOffset mi' = unknownOffset mi
  /\ extensionOffset mi' = extensionOffset mi
  /\ isMessageSet mi' = isMessageSet mi || IsMessageSet (Desc mi)
  /\ (IsMessageSet (Desc mi) = true ->
      IsValid (extensionOffset mi) = true /\ IsValid (unknownOffset mi) = true).
Proof.
  unfold checkMessageSet.
  destruct (IsMessageSet (Desc mi)).
  - destruct (IsValid (extensionOffset mi)); [|done].
    destruct (IsValid (unknownOffset mi)); [|done].
    intros [= <-]. simpl. rewrite orb_true_r. repeat split.
  - intros [= <-]. rewrite orb_false_r. repeat split; done.
Qed.

Lemma indexCoderFields_inv fields mi mi' :
  indexCoderFields fields mi = Ret mi' ->
  store mi' = store mi
  /\ Desc mi' = Desc mi
  /\ coderFields mi' = coderFields mi
  /\ orderedCoderFields mi' ≡ₚ orderedCoderFields mi
  /\ unknownOffset mi' = unknownOffset mi
  /\ extensionOffset mi' = extensionOffset mi
  /\ isMessageSet mi' = isMessageSet mi
  /\ needsInitCheck mi' = needsInitCheckOf (Desc mi).
Proof.
  unfold indexCoderFields. cbv zeta.
  destruct (_ <? 0); [done|].
  destruct (fillDense _ _ _) as [dense|msg]; [|done]. cbn [bind].
  change (Desc (setDense ?a ?b)) with (Desc mi).
  destruct (0 <? length (Oneofs (Desc mi)))%nat; intros [= <-]; simpl;
    repeat split; try done.
  - by rewrite !sortSlice_Permutation.
  - apply sortSlice_Permutation.
Qed.

(** What a successful build keeps of the table its first part leaves. *)
Lemma makeCoderMethods_inv mi t si mi' :
  makeCoderMethods mi t si = Ret mi' ->
  let c := collectCoderFields mi si in
  store mi' = store c
  /\ Desc mi' = Desc c
  /\ coderFields mi' = coderFields c
  /\ orderedCoderFields mi' ≡ₚ orderedCoderFields c
  /\ unknownOffset mi' = unknownOffset c
  /\ extensionOffset mi' = extensionOffset c
  /\ isMessageSet mi' = isMessageSet c || IsMessageSet (Desc c)
  /\ needsInitCheck mi' = needsInitCheckOf (Desc c)
  /\ (IsMessageSet (Desc c) = true ->
      IsValid (extensionOffset c) = true /\ IsValid (unknownOffset c) = true).
Proof.
  unfold makeCoderMethods. cbv zeta.
  destruct (checkMessageSet (collectCoderFields mi si)) as [mc|msg] eqn:Ec;
    [|done].
  cbn [bind]. intros Hi.
  destruct (checkMessageSet_inv _ _ Ec)
    as (C1 & C2 & C3 & C4 & C5 & C6 & C7 & C8).
  destruct (indexCoderFields_inv _ _ _ Hi)
    as (I1 & I2 & I3 & I4 & I5 & I6 & I7 & I8).
  split; [congruence|]. split; [congruence|]. split; [congruence|].
  split; [by rewrite I4, C4|]. split; [congruence|]. split; [congruence|].
  split; [congruence|]. split; [congruence|]. exact C8.
Qed.

(** X8: what a successful build records in the table besides the fields.
    The unknown-bytes and extension slots are those of the struct; the
    descriptor is kept; needsInitCheck is what the descriptor needs; the
    message-set flag is set when the descriptor is a message set and is
    otherwise left as the table had it (it is never cleared); and a table
    whose descriptor is a message set has both slots. *)
Theorem build_records_slots_and_flags mi t si mi' :
  oneofInitFrame ->
  makeCoderMethods mi t si = Ret mi' ->
  Desc mi' = Desc mi
  /\ unknownOffset mi' = si_unknownOffset si
  /\ extensionOffset mi' = si_extensionOffset si
  /\ needsInitCheck mi' = needsInitCheckOf (Desc mi)
  /\ isMessageSet mi' = isMessageSet mi || IsMessageSet (Desc mi)
  /\ (IsMessageSet (Desc mi) = true ->
      isMessageSet mi' = true
      /\ IsValid (extensionOffset mi') = true
      /\ IsValid (unknownOffset mi') = true).
Proof.
  intros Hframe Hrun.
  destruct (makeCoderMethods_inv mi t si mi' Hrun)
    as (_ & I2 & _ & _ & I5 & I6 & I7 & I8 & I9).
  destruct (collectCoderFields_frame Hframe mi si) as (HD & HU & HE & HM).
  cbv zeta in *. rewrite HD in *. rewrite HU in *. rewrite HE in *.
  rewrite HM in *.
  split; [congruence|]. split; [congruence|]. split; [congruence|].
  split; [congruence|]. split; [congruence|].
  intros Hms. split; [|split].
  - rewrite I7, Hms. apply orb_true_r.
  - rewrite I6. by apply I9.
  - rewrite I5. by apply I9.
Qed.

(** X9: for a descriptor with valid field numbers, the build returns a
    table exactly when the descriptor is not a message set or the struct
    has both the extension and the unknown-bytes slot: the dense array is
    never indexed out of range. *)
Theorem build_returns_iff d t si :
  oneofInitFrame ->
  validNumbers d ->
  (exists mi', makeCoderMethods (newMessageInfo d) t si = Ret mi')
  <-> messageSetSlots d si.
Proof.
  intros Hframe Hvalid. split.
  - intros [mi' Hrun] Hms.
    destruct (makeCoderMethods_inv _ t si mi' Hrun)
      as (_ & _ & _ & _ & _ & _ & _ & _ & Hs).
    destruct (collectCoderFields_frame Hframe (newMessageInfo d) si)
      as (HD & HU & HE & _).
    cbv zeta in *. rewrite HD, HU, HE in Hs. by apply Hs.
  - intros Hslots.
    destruct (makeCoderMethods_built Hframe d t si Hvalid Hslots)
      as (mi' & _ & _ & Hrun & _).
    by exists mi'.
Qed.

(** X10: in the table built for a descriptor with valid field numbers, the
    ordered list holds each record once, as many records as the descriptor
    has fields, and their numbers are the descriptor's field numbers; the
    number-keyed map sends the number of the i-th field to the i-th record,
    whose number it is, and has no entry for any other number. *)
Theorem built_table_holds_every_field d t si :
  oneofInitFrame ->
  validNumbers d ->
  messageSetSlots d si ->
  exists mi',
    makeCoderMethods (newMessageInfo d) t si = Ret mi'
    /\ orderedCoderFields mi' ≡ₚ seq 0 (length (Fields d))
    /\ length (orderedCoderFields mi') = length (Fields d)
    /\ NoDup (orderedCoderFields mi')
    /\ orderedNumbers mi' ≡ₚ map Number (Fields d)
    /\ (forall i fd, Fields d !! i = Some fd ->
          coderFields mi' !! Number fd = Some i
          /\ fieldKey mi' i = Number fd
          /\ i ∈ orderedCoderFields mi')
    /\ (forall n, n ∉ map Number (Fields d) -> coderFields mi' !! n = None).
Proof.
  intros Hframe Hvalid Hslots.
  destruct (makeCoderMethods_built Hframe d t si Hvalid Hslots)
    as (mi' & sel & rest & Hrun & Hkey' & _ & Hcf & _ & Hord & _).
  destruct Hvalid as [Hnd Hrange].
  destruct (collectCoderFields_spec Hframe d si Hnd) as (_ & Hfld & Hmiss).
  pose proof (collected_keys Hframe d si Hnd) as Hkeys.
  cbv zeta in *.
  set (mi := collectCoderFields (newMessageInfo d) si) in *.
  assert (Hperm : orderedCoderFields mi' ≡ₚ seq 0 (length (Fields d))).
  { rewrite Hord. destruct (0 <? length (Oneofs d))%nat;
      by rewrite ?sortSlice_Permutation. }
  exists mi'. split; [done|]. split; [done|].
  split; [by rewrite Hperm, length_seq|].
  split; [rewrite Hperm; apply NoDup_seq|].
  split; [|split].
  - unfold orderedNumbers. fold (fieldKey mi').
    rewrite (map_ext _ _ Hkey'), <- Hkeys.
    by apply Permutation_map.
  - intros i fd Hi. destruct (Hfld i fd Hi) as [Hk Hm].
    split; [by rewrite Hcf|]. split; [by rewrite Hkey'|].
    rewrite Hperm. apply elem_of_seq. apply lookup_lt_Some in Hi. lia.
  - intros n Hn. rewrite Hcf. by apply Hmiss.
Qed.

Lemma denseSelected_small nums : forall md n,
  StronglySorted Z.lt nums -> n ∈ nums -> n < 16 ->
  n ∈ denseSelected md nums.
Proof.
  induction nums as [|h nums IH]; intros md n Hs Hin Hn.
  { by apply elem_of_nil in Hin. }
  apply StronglySorted_cons in Hs as [Hh Hs].
  cbn [denseSelected].
  destruct (Z.leb_spec 16 h) as [H16|H16].
  - exfalso. apply elem_of_cons in Hin as [->|Hin]; [lia|].
    rewrite Forall_forall in Hh. specialize (Hh n Hin). lia.
  - cbn [andb]. apply elem_of_cons in Hin as [->|Hin]; [left|].
    right. by apply IH.
Qed.

(** X11: in the table built for a descriptor with valid field numbers,
    every field whose number is below 16 is found through the dense array,
    and the record found is the one the number-keyed map gives. *)
Theorem dense_covers_small_numbers d t si :
  oneofInitFrame ->
  validNumbers d ->
  messageSetSlots d si ->
  exists mi',
    makeCoderMethods (newMessageInfo d) t si = Ret mi'
    /\ forall n, n ∈ map Number (Fields d) -> n < 16 ->
         exists p, denseLookup mi' n = Some p
                   /\ coderFields mi' !! n = Some p
                   /\ fieldKey mi' p = n.
Proof.
  intros Hframe Hvalid Hslots.
  destruct (makeCoderMethods_built Hframe d t si Hvalid Hslots)
    as (mi' & sel & rest & Hrun & Hkey' & _ & Hcf & _ & _
        & Hsplit & Hsel & Hdense & HmaxD & Hselb & _).
  destruct Hvalid as [Hnd Hrange].
  destruct (collectCoderFields_spec Hframe d si Hnd) as (_ & Hfld & _).
  pose proof (collected_keys Hframe d si Hnd) as Hkeys.
  cbv zeta in *.
  set (mi := collectCoderFields (newMessageInfo d) si) in *.
  set (ord1 := sortSlice (lessByNumber mi) (seq 0 (length (Fields d)))) in *.
  assert (Hk1 : map (fieldKey mi) ord1 = sortInts (map Number (Fields d))).
  { unfold ord1. by rewrite lessByNumber_keys, Hkeys. }
  rewrite Hk1 in *.
  assert (Hperm : ord1 ≡ₚ seq 0 (length (Fields d)))
    by apply sortSlice_Permutation.
  exists mi'. split; [done|]. intros n Hn Hn16.
  assert (Htaken : n ∈ denseSelected 0 (sortInts (map Number (Fields d)))).
  { apply denseSelected_small; [by apply sortInts_sorted| |done].
    by rewrite sortInts_Permutation. }
  rewrite <- Hsel in Htaken.
  apply list_elem_of_fmap in Htaken as (p & -> & Hp).
  assert (Hp1 : p ∈ ord1) by (rewrite Hsplit; apply elem_of_app; by left).
  rewrite Hperm in Hp1. apply elem_of_seq in Hp1.
  destruct (lookup_lt_is_Some_2 (Fields d) p) as [fd Hfd]; [lia|].
  destruct (Hfld p fd Hfd) as [Hkp Hmp].
  assert (Hpos : 1 <= fieldKey mi p).
  { rewrite Hkp. rewrite Forall_forall in Hrange. apply Hrange.
    apply list_elem_of_fmap. exists fd. split; [done|].
    by apply list_elem_of_lookup_2 in Hfd. }
  assert (Hle : fieldKey mi p <= default 0 (last (denseSelected 0
                  (sortInts (map Number (Fields d)))))).
  { rewrite Forall_forall in Hselb. by apply Hselb. }
  exists p. split; [|split].
  - unfold denseLookup. destruct (Z.ltb_spec (fieldKey mi p) 0); [lia|].
    rewrite Hdense, denseFold_lookup_elem; [done| |done|].
    + apply NoDup_to_nat_keys.
      * assert (Hs : NoDup (sortInts (map Number (Fields d))))
          by (by rewrite sortInts_Permutation).
        rewrite <- Hk1, Hsplit, map_app in Hs.
        by apply NoDup_app in Hs as [Hs _].
      * apply Forall_forall. intros q Hq.
        assert (Hq1 : q ∈ ord1) by (rewrite Hsplit; apply elem_of_app; by left).
        rewrite Hperm in Hq1. apply elem_of_seq in Hq1.
        destruct (lookup_lt_is_Some_2 (Fields d) q) as [fq Hfq]; [lia|].
        destruct (Hfld q fq Hfq) as [-> _].
        rewrite Forall_forall in Hrange.
        assert (1 <= Number fq < 2 ^ 29); [|lia].
        apply Hrange. apply list_elem_of_fmap. exists fq. split; [done|].
        by apply list_elem_of_lookup_2 in Hfq.
    + rewrite length_replicate. lia.
  - by rewrite Hcf, Hkp.
  - apply Hkey'.
Qed.

Lemma fold_addCoderField_cells si fds : forall mi i fd,
  fds !! i = Some fd ->
  deref (fold_left (addCoderField si) fds mi) (next (store mi) + i)%nat
  = newCoderFieldInfo si fd.
Proof.
  induction fds as [|fd0 fds IH]; intros mi i fd Hi; [done|].
  cbn [fold_left]. destruct i as [|i]; simpl in Hi.
  - injection Hi as <-. rewrite Nat.add_0_r.
    destruct (fold_addCoderField si fds (addCoderField si mi fd0))
      as (_ & _ & _ & _ & _ & Hold).
    rewrite Hold.
    + by rewrite deref_addCoderField, Nat.eqb_refl.
    + change (next (store (addCoderField si mi fd0)))
        with (S (next (store mi))). lia.
  - replace (next (store mi) + S i)%nat
      with (next (store (addCoderField si mi fd0)) + i)%nat
      by (change (next (store (addCoderField si mi fd0)))
            with (S (next (store mi))); lia).
    by apply IH.
Qed.

(** X12: for a type without oneof groups, looking a field up by its number
    in the built table gives the record made from that field's descriptor:
    its tag is made of the field number and the wire type of its kind, or
    the length-delimited wire type when the field is packed, its tag size
    is the varint size of the tag, and it is required, and pointer-like,
    as the descriptor says. *)
Theorem built_record_of_field d t si mi' i fd :
  Oneofs d = [] ->
  NoDup (map Number (Fields d)) ->
  makeCoderMethods (newMessageInfo d) t si = Ret mi' ->
  Fields d !! i = Some fd ->
  coderFields mi' !! Number fd = Some i
  /\ deref mi' i = newCoderFieldInfo si fd
  /\ num (deref mi' i) = Number fd
  /\ wiretag (deref mi' i)
     = EncodeTag (Number fd)
         (if IsPacked fd then BytesType else wireTypes (fdKind fd))
  /\ tagsize (deref mi' i) = SizeVarint (wiretag (deref mi' i))
  /\ isRequired (deref mi' i) = isRequiredCard (fdCardinality fd)
  /\ isPointer (deref mi' i)
     = isRepeated (fdCardinality fd) || isMessageOrGroup (fdKind fd)
       || negb (isProto3 (fdSyntax fd)).
Proof.
  intros Ho Hnd Hrun Hi.
  destruct (makeCoderMethods_inv _ t si mi' Hrun) as (Hst & _ & Hcf & _).
  cbv zeta in *.
  set (mi0 := setCoderFields
                (setOffsets (newMessageInfo d) (si_sizecacheOffset si)
                   (si_unknownOffset si) (si_extensionOffset si))
                emptyStore [] ∅).
  set (mi1 := fold_left (addCoderField si) (Fields d) mi0).
  destruct (fold_addCoderField si (Fields d) mi0)
    as ((HD & _) & _ & _ & Hmap & _).
  fold mi1 in HD, Hmap. change (Desc mi0) with d in HD.
  change (next (store mi0)) with 0%nat in Hmap.
  assert (Hc : collectCoderFields (newMessageInfo d) si = mi1).
  { change (collectCoderFields (newMessageInfo d) si)
      with (fold_left (fun mi od => initOneofFieldCoders mi od si)
              (Oneofs (Desc mi1)) mi1).
    by rewrite HD, Ho. }
  rewrite Hc in Hst, Hcf.
  assert (Hrec : deref mi' i = newCoderFieldInfo si fd).
  { unfold deref. rewrite Hst.
    exact (fold_addCoderField_cells si (Fields d) mi0 i fd Hi). }
  split; [rewrite Hcf; by apply (Hmap Hnd i)|].
  split; [done|]. rewrite Hrec. unfold newCoderFieldInfo.
  destruct (ContainingOneof fd); destruct (IsPacked fd);
    destruct (IsWeak fd); repeat split.
Qed.
End BuildFacts.

(** ** The method table *)

Section MethodFacts.
Context {func : Type}.
Variables (mi_marshal mi_size mi_unmarshal mi_isInitialized : func).
Variables (SupportMarshalDeterministic SupportUnmarshalDiscardUnknown : Z).

(** X13: the end of makeCoderMethods never replaces a method the type
    supplies; it installs the table-driven Marshal and Size together, and
    only when the type supplies neither, so that a type with a Size of its
    own and no Marshal is left without Marshal; Unmarshal and IsInitialized
    are always set afterwards; and running it again changes nothing. *)
Theorem installMethods_keeps_supplied (ms : Methods) :
  let install :=
    installMethods mi_marshal mi_size mi_unmarshal mi_isInitialized
      SupportMarshalDeterministic SupportUnmarshalDiscardUnknown in
  (forall f, m_Marshal ms = Some f -> m_Marshal (install ms) = Some f)
  /\ (forall f, m_Size ms = Some f -> m_Size (install ms) = Some f)
  /\ (forall f, m_Unmarshal ms = Some f -> m_Unmarshal (install ms) = Some f)
  /\ (forall f, m_IsInitialized ms = Some f ->
        m_IsInitialized (install ms) = Some f)
  /\ (m_Marshal ms = None -> m_Size ms = None ->
      m_Marshal (install ms) = Some mi_marshal
      /\ m_Size (install ms) = Some mi_size)
  /\ (forall f, m_Marshal ms = None -> m_Size ms = Some f ->
        m_Marshal (install ms) = None)
  /\ (forall f, m_Marshal ms = Some f -> m_Size ms = None ->
        m_Size (install ms) = None)
  /\ isNil (m_Unmarshal (install ms)) = false
  /\ isNil (m_IsInitialized (install ms)) = false
  /\ install (install ms) = install ms.
Proof.
  destruct ms as [fl [ma|] [sz|] [un|] [ii|]]; cbv [installMethods isNil andb
    m_Flags m_Marshal m_Size m_Unmarshal m_IsInitialized];
    repeat split; intros; congruence.
Qed.
End MethodFacts.

(** ** The further statements on the example runtime *)

Section EvaluationMore.
#[local] Existing Instance exStorage.
#[local] Existing Instance exCodecs.
#[local] Existing Instance exRegistry.

Lemma exBytesCoder_appends n o : fieldCoderAppends (exField n o exBytesCoder).
Proof. intros b v opts. simpl. by apply prefix_app_r. Qed.

Lemma exExtension_appends x : extensionCoderAppends x.
Proof. intros b v tag opts. simpl. by apply prefix_app_r. Qed.

Lemma exPackedDescriptor_numbers :
  NoDup (map Number (Fields exPackedDescriptor)).
Proof. compute_done. Qed.

Lemma sizeExtensions_listing_witness :
  sizeExtensions exTable (Some exExtensions') exOpts
  = sizeExtensions exTable (Some exExtensions) exOpts.
Proof.
  apply (sizeExtensions_listing exTable exExtensions exExtensions' exOpts
           exExtensions_perm).
Defined.

Lemma sizePointerSlow_sum_witness :
  fst (sizePointerSlow exTable exMessage exOpts) = int (6 + 5 + 2).
Proof.
  apply (sizePointerSlow_sum (codecs := exCodecs) exTable exMessage exOpts
           eq_refl).
Defined.

Lemma marshal_only_appends_witness :
  exists out,
    MessageInfo_marshal exTable (messageState (Some exMessage))
      {| Buf := [xff] |} exOpts = Ret (out, None)
    /\ [xff] `prefix_of` OutBuf out.
Proof.
  eexists. split; [reflexivity|].
  apply (marshal_only_appends (codecs := exCodecs) exTable
           (messageState (Some exMessage)) {| Buf := [xff] |} exOpts _ None).
  - repeat constructor; apply exBytesCoder_appends.
  - intros p mm _ _. apply Forall_forall. intros kx _.
    apply exExtension_appends.
  - intros [=].
  - reflexivity.
Defined.

Lemma marshal_panics_on_nil_coder_witness :
  marshalAppendPointer (codecs := exNoMarshalCodecs) exTable []
    (Some exMessage) exOpts
  = Panic "invalid memory address or nil pointer dereference".
Proof.
  apply (proj2 (marshal_panics_on_nil_coder (codecs := exNoMarshalCodecs)
                  exTable [] exMessage exOpts eq_refl eq_refl
                  exExtensions_wf)
           (exExtension 3 [x03])
           [exExtension 5 [x05]; exExtension 9 [x09]]);
    reflexivity.
Defined.

Lemma exMessage_sameButListing : sameButListing exMessage exMessage'.
Proof. repeat split. apply exExtensions_perm. Qed.

Lemma listing_order_is_unobservable_witness :
  marshalAppendPointer exTable [] (Some exMessage') exOpts
  = marshalAppendPointer exTable [] (Some exMessage) exOpts.
Proof.
  apply (listing_order_is_unobservable (codecs := exCodecs) exTable []
           exMessage exMessage' exOpts eq_refl exExtensions_wf
           exMessage_sameButListing).
Defined.

Lemma build_records_slots_and_flags_witness :
  match makeCoderMethods (newMessageInfo exSetDescriptor) None exStructInfo with
  | Ret mi' =>
      isMessageSet mi' = true
      /\ IsValid (extensionOffset mi') = true
      /\ IsValid (unknownOffset mi') = true
  | Panic _ => False
  end.
Proof.
  destruct (makeCoderMethods (newMessageInfo exSetDescriptor) None
              exStructInfo) as [mi'|msg] eqn:E.
  - apply (build_records_slots_and_flags _ None exStructInfo mi'
             exRegistry_frame E). reflexivity.
  - vm_compute in E. discriminate.
Defined.

Lemma build_returns_iff_witness :
  (exists mi',
     makeCoderMethods (newMessageInfo exSparseDescriptor) None exStructInfo
     = Ret mi')
  <-> messageSetSlots exSparseDescriptor exStructInfo.
Proof.
  apply (build_returns_iff exSparseDescriptor None exStructInfo
           exRegistry_frame exSparseDescriptor_valid).
Defined.

Lemma built_table_holds_every_field_witness :
  exists mi',
    makeCoderMethods (newMessageInfo exOneofDescriptor) None exStructInfo
    = Ret mi'
    /\ length (orderedCoderFields mi') = 4%nat.
Proof.
  destruct (built_table_holds_every_field exOneofDescriptor None exStructInfo
              exRegistry_frame exOneofDescriptor_valid)
    as (mi' & Hrun & _ & Hlen & _).
  - intros [=].
  - exists mi'. split; [exact Hrun|exact Hlen].
Defined.

Lemma dense_covers_small_numbers_witness :
  exists mi' p,
    makeCoderMethods (newMessageInfo exSparseDescriptor) None exStructInfo
    = Ret mi'
    /\ denseLookup mi' 5 = Some p
    /\ coderFields mi' !! 5 = Some p.
Proof.
  destruct (dense_covers_small_numbers exSparseDescriptor None exStructInfo
              exRegistry_frame exSparseDescriptor_valid)
    as (mi' & Hrun & Hsmall).
  - intros [=].
  - destruct (Hsmall 5) as (p & Hd & Hm & _).
    + compute_done.
    + lia.
    + by exists mi', p.
Defined.

Lemma built_record_of_field_witness :
  match makeCoderMethods (newMessageInfo exPackedDescriptor) None
          exStructInfo with
  | Ret mi' =>
      wiretag (deref mi' 0%nat) = 58 /\ isRequired (deref mi' 1%nat) = true
  | Panic _ => False
  end.
Proof.
  destruct (makeCoderMethods (newMessageInfo exPackedDescriptor) None
              exStructInfo) as [mi'|msg] eqn:E.
  - split.
    + apply (built_record_of_field exPackedDescriptor None exStructInfo mi'
               0%nat _ eq_refl exPackedDescriptor_numbers E eq_refl).
    + apply (built_record_of_field exPackedDescriptor None exStructInfo mi'
               1%nat _ eq_refl exPackedDescriptor_numbers E eq_refl).
  - vm_compute in E. discriminate.
Defined.
End EvaluationMore.
